(** * praxis-hub-api: the edge worker of [src/index.ts]

    A shallow embedding of the worker's [fetch] handler, of its helpers
    [sha1] and [listAllKeys], and of the JavaScript primitives they call,
    followed by the properties of the handler.

    Strings are sequences of 8-bit code units (the UTF-8 form of the
    JavaScript string).  Every character the handler inspects, the slash,
    the double quote, [W] and the letters of [.json], is ASCII, and an ASCII
    code unit never occurs inside a multi-byte sequence, so the string
    operations below act on the UTF-8 form exactly as the source acts on
    the UTF-16 form. *)

From Stdlib Require Import ZArith List String Ascii Bool Arith Lia.
From Stdlib Require Import DecimalString DecimalNat.
Set Warnings "-register-all".
Import ListNotations.
Open Scope string_scope.

(** ** JavaScript string primitives *)

Module JsString.

(** The double quote character (code 34). *)
Definition dquote : ascii := "034"%char.

(** [s.slice(n)]: [s] without its first [n] code units. *)
Fixpoint slice (n : nat) (s : string) : string :=
  match n, s with
  | S n', String _ s' => slice n' s'
  | _, _ => s
  end.

(** Length of the longest run of [c] that starts the string: what the
    greedy pattern [c+] consumes when it is tried at index 0. *)
Fixpoint run_length (c : ascii) (s : string) : nat :=
  match s with
  | String a s' => if Ascii.eqb a c then S (run_length c s') else 0
  | EmptyString => 0
  end.

(** [s.replace(/^c+/, '')]: the pattern is anchored, so it matches at most
    once, at index 0, and only when at least one [c] stands there. *)
Definition replace_leading_run (c : ascii) (s : string) : string :=
  match run_length c s with
  | 0 => s
  | S k => slice (S k) s
  end.

(** [s.endsWith(search)] as ECMAScript defines it: with [start] the length
    of [s] minus the length of [search], the answer is false when [start]
    is negative and otherwise whether the code units of [s] from [start]
    on are those of [search]. *)
Definition endsWith (s search : string) : bool :=
  let len := String.length s in
  let searchLength := String.length search in
  if (searchLength <=? len)%nat
  then String.eqb (substring (len - searchLength) searchLength s) search
  else false.

(** [s.replace(/^W\//, '')]: drop the two code units [W/] when [s] starts
    with them. *)
Definition replace_weak_prefix (s : string) : string :=
  if prefix "W/" s then slice 2 s else s.

(** Whether [s] is one or more double quotes and nothing else: the
    pattern [Q+$], with [Q] the double quote, matches at the current index
    exactly then. *)
Fixpoint quotes_to_end (s : string) : bool :=
  match s with
  | EmptyString => false
  | String a EmptyString => Ascii.eqb a dquote
  | String a s' => Ascii.eqb a dquote && quotes_to_end s'
  end.

(** The scan of a global replace once the anchored alternative can no
    longer match: at each index the second alternative, a run of quotes
    reaching the end of the string, is tried; a match is deleted, and
    otherwise the code unit is kept and the scan moves on by one. *)
Fixpoint replace_trailing_quotes (s : string) : string :=
  match s with
  | EmptyString => EmptyString
  | String a s' =>
      if quotes_to_end s then EmptyString
      else String a (replace_trailing_quotes s')
  end.

(** [s.replace(/^Q+|Q+$/g, '')], with [Q] the double quote: at index 0 the
    first alternative deletes the leading run of quotes, if any; the scan
    then goes on from the end of that match with the second alternative
    alone. *)
Definition replace_surrounding_quotes (s : string) : string :=
  replace_trailing_quotes (slice (run_length dquote s) s).

End JsString.

(** A string with no double quote in it. *)
Fixpoint quote_free (s : string) : bool :=
  match s with
  | EmptyString => true
  | String a s' => negb (Ascii.eqb a JsString.dquote) && quote_free s'
  end.

(** ** The storage key of a request path (lines 34 and 35 of [fetch]) *)

Definition derive_key (pathname : string) : string :=
  let key := JsString.replace_leading_run "/" pathname in
  if negb (JsString.endsWith key ".json") then key ++ ".json" else key.

(** *** The derivation in the words of the specification *)

(** Strip all leading slash characters. *)
Fixpoint strip_leading_slashes (p : string) : string :=
  match p with
  | String "/" p' => strip_leading_slashes p'
  | _ => p
  end.

(** [s] ends with the suffix [suf]. *)
Definition has_suffix (s suf : string) : Prop :=
  exists pre, s = pre ++ suf.

(** The number of slashes a path starts with. *)
Definition leading_slashes (p : string) : nat :=
  JsString.run_length "/" p.

(** ** The digest of [sha1] (lines 79 to 85) *)

Module Sha1.

Local Open Scope Z_scope.

(** [new TextEncoder().encode(data)]: the UTF-8 code units of the string. *)
Definition encode (data : string) : list Z :=
  map (fun a => Z.of_N (N_of_ascii a)) (list_ascii_of_string data).

Definition w32 (x : Z) : Z := Z.land x 0xFFFFFFFF.

Definition rotl (n x : Z) : Z :=
  w32 (Z.lor (Z.shiftl x n) (Z.shiftr x (32 - n))).

Definition add32 (x y : Z) : Z := w32 (x + y).

(** The padded message: the bytes, one byte 128, zero bytes up to 56 modulo
    64, and the bit length as eight big-endian bytes. *)
Definition be_bytes (n : nat) (x : Z) : list Z :=
  map (fun i => Z.land (Z.shiftr x (8 * Z.of_nat i)) 255) (rev (seq 0 n)).

Definition pad (msg : list Z) : list Z :=
  let len := Z.of_nat (List.length msg) in
  msg ++ [128] ++ repeat 0 (Z.to_nat ((55 - len) mod 64)) ++ be_bytes 8 (8 * len).

Fixpoint words (bs : list Z) : list Z :=
  match bs with
  | a :: b :: c :: d :: rest =>
      Z.lor (Z.lor (Z.shiftl a 24) (Z.shiftl b 16)) (Z.lor (Z.shiftl c 8) d)
      :: words rest
  | _ => []
  end.

(** The message schedule, newest word first: [n] more words after [w]. *)
Fixpoint schedule (n : nat) (w : list Z) : list Z :=
  match n with
  | O => w
  | S n' =>
      let x := Z.lxor (Z.lxor (nth 2 w 0) (nth 7 w 0))
                      (Z.lxor (nth 13 w 0) (nth 15 w 0)) in
      schedule n' (rotl 1 x :: w)
  end.

Definition f (t : nat) (b c d : Z) : Z :=
  if (t <? 20)%nat then Z.lor (Z.land b c) (Z.land (Z.lnot b) d)
  else if (t <? 40)%nat then Z.lxor (Z.lxor b c) d
  else if (t <? 60)%nat then Z.lor (Z.lor (Z.land b c) (Z.land b d)) (Z.land c d)
  else Z.lxor (Z.lxor b c) d.

Definition k (t : nat) : Z :=
  if (t <? 20)%nat then 0x5A827999
  else if (t <? 40)%nat then 0x6ED9EBA1
  else if (t <? 60)%nat then 0x8F1BBCDC
  else 0xCA62C1D6.

Record state := mkState { h0 : Z; h1 : Z; h2 : Z; h3 : Z; h4 : Z }.

Definition init : state :=
  mkState 0x67452301 0xEFCDAB89 0x98BADCFE 0x10325476 0xC3D2E1F0.

Definition round (s : state) (tw : nat * Z) : state :=
  let (t, w) := tw in
  let temp :=
    add32 (add32 (add32 (add32 (rotl 5 (h0 s)) (f t (h1 s) (h2 s) (h3 s)))
                        (h4 s)) (k t)) w in
  mkState temp (h0 s) (rotl 30 (h1 s)) (h2 s) (h3 s).

Definition block (h : state) (w16 : list Z) : state :=
  let w80 := rev (schedule 64 (rev w16)) in
  let s := fold_left round (combine (seq 0 80) w80) h in
  mkState (add32 (h0 h) (h0 s)) (add32 (h1 h) (h1 s)) (add32 (h2 h) (h2 s))
          (add32 (h3 h) (h3 s)) (add32 (h4 h) (h4 s)).

Fixpoint blocks (fuel : nat) (ws : list Z) (h : state) : state :=
  match fuel, ws with
  | S fuel', _ :: _ => blocks fuel' (skipn 16 ws) (block h (firstn 16 ws))
  | _, _ => h
  end.

(** [crypto.subtle.digest('SHA-1', buffer)]: the twenty bytes of FIPS 180-4. *)
Definition digest (msg : list Z) : list Z :=
  let ws := words (pad msg) in
  let h := blocks (List.length ws) ws init in
  flat_map (be_bytes 4) [h0 h; h1 h; h2 h; h3 h; h4 h].

Definition hex_digit (d : Z) : ascii :=
  match get (Z.to_nat d) "0123456789abcdef" with
  | Some c => c
  | None => "0"%char
  end.

(** [n.toString(16)] for an integer [n >= 0]. *)
Fixpoint toString16_loop (fuel : nat) (n : Z) (acc : string) : string :=
  let acc' := String (hex_digit (n mod 16)) acc in
  match fuel with
  | O => acc'
  | S fuel' => if n / 16 =? 0 then acc' else toString16_loop fuel' (n / 16) acc'
  end.

Definition toString16 (n : Z) : string :=
  toString16_loop (Z.to_nat (Z.log2 n)) n EmptyString.

(** [s.padStart(targetLength, c)] with a pad of one code unit. *)
Definition padStart (targetLength : nat) (c : ascii) (s : string) : string :=
  string_of_list_ascii (repeat c (targetLength - String.length s)) ++ s.

(** [hashArray.map((b) => b.toString(16).padStart(2, '0')).join('')] *)
Definition hex (bytes : list Z) : string :=
  String.concat EmptyString (map (fun b => padStart 2 "0" (toString16 b)) bytes).

End Sha1.

Definition sha1 (data : string) : string :=
  Sha1.hex (Sha1.digest (Sha1.encode data)).

(** ** JavaScript values and [JSON.stringify] *)

(** How an operation ends: with a value, or with a thrown value. *)
Inductive Outcome (E A : Type) : Type :=
| Normal (a : A)
| Throw (e : E).

Arguments Normal {E A} a.
Arguments Throw {E A} e.

Module Json.

Import JsString.

(** [Number.isSafeInteger]: the integers a number holds exactly. *)
Definition safe_integer (n : Z) : bool :=
  (Z.abs n <=? 9007199254740991)%Z.

(** The values a [catch] clause can receive and [JSON.stringify] can be
    given.  A [JsNumber] is a safe integer; an array is its elements and
    an object its table of data properties, in property order, both
    without accessors, without a [toJSON] method and without cycles.
    Every other value, a function, a symbol, a number that is no safe
    integer, an object with accessors or with [toJSON], a cyclic object,
    a proxy, is a [JsExotic], known by what the handler and
    [JSON.stringify] observe of it: the string that [typeof] gives,
    whether it is truthy, how the test of a [message] property ends, how
    reading [message] ends, and how serialising it as the value of a
    property ends. *)
Inductive JsValue : Type :=
| JsUndefined
| JsNull
| JsBoolean (b : bool)
| JsNumber (n : Z) (safe : safe_integer n = true)
| JsBigInt (n : Z)
| JsString (s : string)
| JsArray (elements : list JsValue)
| JsObject (properties : list (string * JsValue))
| JsExotic (type : string)
           (truthy : bool)
           (has : Outcome JsValue bool)
           (message : Outcome JsValue JsValue)
           (json : Outcome JsValue (option string)).

(** A [TypeError] with the given message. *)
Definition TypeError (message : string) : JsValue :=
  JsObject [("message", JsString message); ("name", JsString "TypeError")].

(** [ToBoolean]: the test of [if], [while], [&&] and [!]. *)
Definition ToBoolean (v : JsValue) : bool :=
  match v with
  | JsUndefined | JsNull => false
  | JsBoolean b => b
  | JsNumber n _ => negb (n =? 0)%Z
  | JsBigInt n => negb (n =? 0)%Z
  | JsString s => negb (s =? EmptyString)
  | JsArray _ | JsObject _ => true
  | JsExotic _ truthy _ _ _ => truthy
  end.

Definition typeof (v : JsValue) : string :=
  match v with
  | JsUndefined => "undefined"
  | JsNull => "object"
  | JsBoolean _ => "boolean"
  | JsNumber _ _ => "number"
  | JsBigInt _ => "bigint"
  | JsString _ => "string"
  | JsArray _ | JsObject _ => "object"
  | JsExotic type _ _ _ _ => type
  end.

Fixpoint lookup (name : string) (properties : list (string * JsValue))
  : option JsValue :=
  match properties with
  | [] => None
  | (k, v) :: rest => if k =? name then Some v else lookup name rest
  end.

(** ['message' in v]: a [TypeError] on a value that is no object. *)
Definition has_message (v : JsValue) : Outcome JsValue bool :=
  match v with
  | JsObject properties =>
      Normal (match lookup "message" properties with
              | Some _ => true
              | None => false
              end)
  | JsArray _ => Normal false
  | JsExotic _ _ has _ _ => has
  | _ => Throw (TypeError "Cannot use 'in' operator to search for 'message'")
  end.

(** [v.message]: [undefined] when the property is missing, a [TypeError]
    on [undefined] and [null]. *)
Definition get_message (v : JsValue) : Outcome JsValue JsValue :=
  match v with
  | JsObject properties =>
      Normal (match lookup "message" properties with
              | Some x => x
              | None => JsUndefined
              end)
  | JsExotic _ _ _ message _ => message
  | JsUndefined | JsNull =>
      Throw (TypeError "Cannot read properties of undefined (reading 'message')")
  | _ => Normal JsUndefined
  end.

(** The escape of one code unit in [QuoteJSONString]. *)
Definition escape (a : ascii) : string :=
  let n := nat_of_ascii a in
  if Ascii.eqb a dquote then String "\" (String dquote EmptyString)
  else if Ascii.eqb a "\" then "\\"
  else if (n =? 8)%nat then "\b"
  else if (n =? 9)%nat then "\t"
  else if (n =? 10)%nat then "\n"
  else if (n =? 12)%nat then "\f"
  else if (n =? 13)%nat then "\r"
  else if (n <? 32)%nat
  then "\u00" ++ String (Sha1.hex_digit (Z.of_nat (n / 16)))
                        (String (Sha1.hex_digit (Z.of_nat (n mod 16))) EmptyString)
  else String a EmptyString.

Fixpoint escape_all (s : string) : string :=
  match s with
  | EmptyString => EmptyString
  | String a s' => escape a ++ escape_all s'
  end.

(** [QuoteJSONString]: the escaped text between two double quotes. *)
Definition quote (s : string) : string :=
  String dquote (escape_all s ++ String dquote EmptyString).

(** The text between two double quotes, as it stands. *)
Definition quoted (s : string) : string :=
  String dquote (s ++ String dquote EmptyString).

(** The text of a safe integer: its decimal digits, with a minus sign
    below zero. *)
Definition decimal (n : Z) : string :=
  DecimalString.NilZero.string_of_int (Z.to_int n).

(** The text [JSON.stringify(v)] returns when it returns, [None] standing
    for [undefined]: a property whose value is [undefined] is left out of
    an object, and an [undefined] element of an array is written [null]. *)
Fixpoint stringify (v : JsValue) : option string :=
  match v with
  | JsUndefined => None
  | JsNull => Some "null"
  | JsBoolean b => Some (if b then "true" else "false")
  | JsNumber n _ => Some (decimal n)
  | JsBigInt _ => None
  | JsString s => Some (quote s)
  | JsArray elements =>
      Some ("[" ++ String.concat ","
                     (map (fun e => match stringify e with
                                    | Some t => t
                                    | None => "null"
                                    end) elements) ++ "]")
  | JsObject properties =>
      Some ("{" ++ String.concat ","
                     (flat_map (fun kv : string * JsValue =>
                                  let (k, x) := kv in
                                  match stringify x with
                                  | Some t => [quote k ++ ":" ++ t]
                                  | None => []
                                  end) properties) ++ "}")
  | JsExotic _ _ _ _ json =>
      match json with
      | Normal t => t
      | Throw _ => None
      end
  end.

(** What [JSON.stringify(v)] throws, if it throws: a [TypeError] on a
    BigInt, whatever an exotic value throws, and in an array or an object
    what its first element or property to throw throws. *)
Fixpoint stringify_fault (v : JsValue) : option JsValue :=
  match v with
  | JsBigInt _ => Some (TypeError "Do not know how to serialize a BigInt")
  | JsExotic _ _ _ _ json =>
      match json with
      | Normal _ => None
      | Throw e => Some e
      end
  | JsArray elements =>
      (fix first (es : list JsValue) : option JsValue :=
         match es with
         | [] => None
         | e :: es' =>
             match stringify_fault e with
             | Some x => Some x
             | None => first es'
             end
         end) elements
  | JsObject properties =>
      (fix first (ps : list (string * JsValue)) : option JsValue :=
         match ps with
         | [] => None
         | (_, x) :: ps' =>
             match stringify_fault x with
             | Some e => Some e
             | None => first ps'
             end
         end) properties
  | _ => None
  end.

(** [JSON.stringify(v)]. *)
Definition JSON_stringify (v : JsValue) : Outcome JsValue (option string) :=
  match stringify_fault v with
  | Some e => Throw e
  | None => Normal (stringify v)
  end.

(** A string that [QuoteJSONString] leaves as it is: no double quote, no
    backslash, no control character. *)
Fixpoint plain (s : string) : bool :=
  match s with
  | EmptyString => true
  | String a s' =>
      negb (Ascii.eqb a dquote) && negb (Ascii.eqb a "\")
      && (32 <=? nat_of_ascii a)%nat && plain s'
  end.

End Json.

Export Json.

(** ** The key-value namespace, requests and responses *)

(** How a call ends: with a value, or with a thrown JavaScript value. *)
Definition Completion (A : Type) : Type := Outcome JsValue A.

Record KVKey : Type := { name : string }.

(** The argument of [kv.list]. *)
Record ListOptions : Type := { opt_cursor : option string; opt_limit : Z }.

(** [{ keys: { name: string }[]; cursor?: string }] *)
Record ListResponse : Type := { keys : list KVKey; cursor : option string }.

(** What [getWithMetadata(key, { type: 'text' })] resolves to; [value] is a
    string or null. *)
Record GetResult : Type := { value : option string; metadata : JsValue }.

(** The store is outside the worker: each operation reads and may change
    a world of type [World], and either resolves or rejects. *)
Record KVNamespace (World : Type) : Type := {
  kv_list : ListOptions -> World -> Completion ListResponse * World;
  kv_getWithMetadata :
    string -> World -> Completion (option GetResult) * World
}.

Arguments kv_list {World} _ _ _.
Arguments kv_getWithMetadata {World} _ _ _.

Record Env (World : Type) : Type := { APP_JSON : KVNamespace World }.

Arguments APP_JSON {World} _.

(** The parts of a request the handler reads: [new URL(request.url).pathname]
    and [request.headers.get('If-None-Match')], [None] standing for null. *)
Record Request : Type := {
  url_pathname : string;
  header_If_None_Match : option string
}.

Record Response : Type := {
  status : Z;
  headers : list (string * string);
  body : option string
}.

(** The value of a response header, if the response carries it. *)
Fixpoint headers_get (h : string) (hs : list (string * string)) : option string :=
  match hs with
  | [] => None
  | (k, v) :: rest => if k =? h then Some v else headers_get h rest
  end.

(** The test of [while (cursor)] on a [string | undefined]: an absent
    cursor and the empty string are both falsy. *)
Definition cursor_truthy (cursor : option string) : bool :=
  match cursor with
  | None => false
  | Some c => negb (c =? EmptyString)
  end.

(** ** [listAllKeys] (lines 88 to 99) *)

Section Worker.

Context {World : Type}.

(** The do-while loop, entered with the keys gathered so far and the last
    cursor.  Each iteration costs one unit of [fuel]; [None] is a loop that
    has not ended within [fuel] iterations. *)
Fixpoint listAllKeys_loop (fuel : nat) (kv : KVNamespace World)
    (keys0 : list string) (cursor0 : option string) (w : World)
  : option (Completion (list string) * World) :=
  match fuel with
  | O => None
  | S fuel' =>
      match kv_list kv {| opt_cursor := cursor0; opt_limit := 1000 |} w with
      | (Throw e, w') => Some (Throw e, w')
      | (Normal listResponse, w') =>
          let keys1 := (keys0 ++ map name (keys listResponse))%list in
          let cursor1 := cursor listResponse in
          if cursor_truthy cursor1
          then listAllKeys_loop fuel' kv keys1 cursor1 w'
          else Some (Normal keys1, w')
      end
  end.

Definition listAllKeys (fuel : nat) (kv : KVNamespace World) (w : World)
  : option (Completion (list string) * World) :=
  listAllKeys_loop fuel kv [] None w.

(** ** [fetch] (lines 6 to 75) *)

(** The message of the catch clause (lines 22 to 25); the test and the
    read of the property can themselves throw. *)
Definition errorMessage_of (err : JsValue) : Completion JsValue :=
  if ToBoolean err && (typeof err =? "object") then
    match has_message err with
    | Throw e => Throw e
    | Normal true => get_message err
    | Normal false => Normal (JsString "Unknown error")
    end
  else Normal (JsString "Unknown error").

Definition fetch (fuel : nat) (request : Request) (env : Env World) (w : World)
  : option (Completion Response * World) :=
  let pathname := url_pathname request in
  if pathname =? "/list-keys" then
    (* the try block, lines 13 to 20 *)
    let attempt :=
      match listAllKeys fuel (APP_JSON env) w with
      | None => None
      | Some (Throw err, w') => Some (Throw err, w')
      | Some (Normal allKeys, w') =>
          match JSON_stringify (JsArray (map JsString allKeys)) with
          | Throw err => Some (Throw err, w')
          | Normal text =>
              Some (Normal {| status := 200;
                              headers := [("Content-Type", "application/json");
                                          ("Access-Control-Allow-Origin", "*")];
                              body := text |},
                    w')
          end
      end in
    match attempt with
    | None => None
    | Some (Normal response, w') => Some (Normal response, w')
    | Some (Throw err, w') =>
        (* the catch block, lines 21 to 30 *)
        match errorMessage_of err with
        | Throw e => Some (Throw e, w')
        | Normal errorMessage =>
            match JSON_stringify
                    (JsObject [("error", JsString "Failed to list keys");
                               ("details", errorMessage)]) with
            | Throw e => Some (Throw e, w')
            | Normal text =>
                Some (Normal {| status := 500;
                                headers := [("Content-Type", "application/json")];
                                body := text |},
                      w')
            end
        end
    end
  else
    let key := derive_key pathname in
    match kv_getWithMetadata (APP_JSON env) key w with
    | (Throw e, w') => Some (Throw e, w')
    | (Normal object, w') =>
        let notFound :=
          match JSON_stringify
                  (JsObject [("error",
                              JsString ("JSON not found for key: " ++ key))]) with
          | Throw e => Some (Throw e, w')
          | Normal text =>
              Some (Normal {| status := 404;
                              headers := [("Content-Type", "application/json")];
                              body := text |},
                    w')
          end in
        match object with
        | None => notFound
        | Some o =>
            match value o with
            | None => notFound
            | Some jsonString =>
                if jsonString =? EmptyString then notFound
                else
                  let etag := quoted (sha1 jsonString) in
                  let ifNoneMatch :=
                    option_map (fun h => JsString.replace_surrounding_quotes
                                           (JsString.replace_weak_prefix h))
                               (header_If_None_Match request) in
                  let normalizedEtag := JsString.replace_surrounding_quotes etag in
                  if match ifNoneMatch with
                     | Some x => x =? normalizedEtag
                     | None => false
                     end
                  then
                    Some (Normal {| status := 304;
                                    headers := [("ETag", etag);
                                                ("Access-Control-Allow-Origin", "*");
                                                ("Access-Control-Expose-Headers", "ETag")];
                                    body := None |},
                          w')
                  else
                    Some (Normal {| status := 200;
                                    headers := [("Content-Type", "application/json");
                                                ("Access-Control-Allow-Origin", "*");
                                                ("Cache-Control", "public, max-age=300");
                                                ("ETag", etag)];
                                    body := Some jsonString |},
                          w')
            end
        end
    end.

End Worker.

(** ** Stores to run the worker against *)

(** A record of the listing calls a store has served: the options of each
    call and how the call ended, oldest first. *)
Definition ListLog : Type := list (ListOptions * Completion ListResponse).

(** The store [kv] with every [list] call written to a log that rides
    along with the world; the worker sees the same answers as from [kv]. *)
Definition logging {World : Type} (kv : KVNamespace World)
  : KVNamespace (World * ListLog) :=
  {| kv_list := fun o wl =>
       let (r, w') := kv_list kv o (fst wl) in
       (r, (w', (snd wl ++ [(o, r)])%list));
     kv_getWithMetadata := fun k wl =>
       let (r, w') := kv_getWithMetadata kv k (fst wl) in
       (r, (w', snd wl)) |}.

(** The names of the keys the logged calls returned, in call order. *)
Definition logged_names (log : ListLog) : list string :=
  flat_map (fun e => match snd e with
                     | Normal r => map name (keys r)
                     | Throw _ => []
                     end) log.

(** A cursor of the in-memory store: the offset of the next page, in
    decimal. *)
Definition encode_cursor (offset : nat) : string :=
  NilZero.string_of_uint (Nat.to_uint offset).

Definition decode_cursor (c : string) : option nat :=
  option_map Nat.of_uint (NilZero.uint_of_string c).

(** An in-memory store holding [docs], key and text, in listing order.
    [list] serves [limit] keys from the offset its cursor names and hands
    out a cursor while keys remain; it rejects a cursor it did not make. *)
Definition mem_list (docs : list (string * string)) (o : ListOptions)
  : Completion ListResponse :=
  match match opt_cursor o with
        | None => Some 0
        | Some c => decode_cursor c
        end with
  | None => Throw (JsObject [("message", JsString "Invalid cursor")])
  | Some offset =>
      let limit := Z.to_nat (opt_limit o) in
      let names := map fst docs in
      Normal {| keys := map Build_KVKey (firstn limit (skipn offset names));
                cursor := if (offset + limit <? List.length names)%nat
                          then Some (encode_cursor (offset + limit))
                          else None |}
  end.

Fixpoint mem_get (docs : list (string * string)) (key : string) : option string :=
  match docs with
  | [] => None
  | (k, v) :: rest => if k =? key then Some v else mem_get rest key
  end.

Definition mem_store (docs : list (string * string)) : KVNamespace unit :=
  {| kv_list := fun o w => (mem_list docs o, w);
     kv_getWithMetadata := fun key w =>
       (Normal (Some {| value := mem_get docs key; metadata := JsNull |}), w) |}.

(** A store whose every [list] call rejects with [e]. *)
Definition failing_store (e : JsValue) : KVNamespace unit :=
  {| kv_list := fun _ w => (Throw e, w);
     kv_getWithMetadata := fun _ w => (Throw e, w) |}.

(** A store whose first page comes with a cursor and whose every later
    [list] call rejects with [e]. *)
Definition flaky_store (e : JsValue) : KVNamespace unit :=
  {| kv_list := fun o w =>
       (match opt_cursor o with
        | None => Normal {| keys := [ {| name := "a" |} ]; cursor := Some "next" |}
        | Some _ => Throw e
        end, w);
     kv_getWithMetadata := fun _ w => (Normal None, w) |}.

(** A store that serves one key per page and whose world counts the pages
    still to come: a cursor comes with every page but the last. *)
Definition countdown_store : KVNamespace nat :=
  {| kv_list := fun _ n =>
       (Normal {| keys := [ {| name := "k" |} ];
                  cursor := match n with O => None | S _ => Some "next" end |},
        Nat.pred n);
     kv_getWithMetadata := fun _ n => (Normal None, n) |}.

(** A store that hands out a cursor with every page. *)
Definition endless_store : KVNamespace unit :=
  {| kv_list := fun _ w =>
       (Normal {| keys := [ {| name := "k" |} ]; cursor := Some "next" |}, w);
     kv_getWithMetadata := fun _ w => (Normal None, w) |}.

(** A store whose first page comes with the empty string as its cursor,
    and which has a second page for whoever asks with that cursor. *)
Definition empty_cursor_store : KVNamespace unit :=
  {| kv_list := fun o w =>
       (match opt_cursor o with
        | None => Normal {| keys := [ {| name := "a" |} ];
                            cursor := Some EmptyString |}
        | Some _ => Normal {| keys := [ {| name := "b" |} ]; cursor := None |}
        end, w);
     kv_getWithMetadata := fun _ w => (Normal None, w) |}.

(** The [n]-th call, counted from 0, of the sequence of listing calls in
    which each call is given the cursor of the one before, the first one
    [cursor0]: how it ends, and the world after it. *)
Fixpoint nth_list_call {World : Type} (kv : KVNamespace World) (n : nat)
    (cursor0 : option string) (w : World) : Completion ListResponse * World :=
  match n with
  | O => kv_list kv {| opt_cursor := cursor0; opt_limit := 1000 |} w
  | S n' =>
      match kv_list kv {| opt_cursor := cursor0; opt_limit := 1000 |} w with
      | (Normal r, w') => nth_list_call kv n' (cursor r) w'
      | (Throw e, w') => (Throw e, w')
      end
  end.

(** What the claim about enumeration says of a log: every call asked for
    1000 keys, the first call carried [cursor0] and each later one the
    cursor of the response before it, every response but the last came
    with a cursor that [continues], and the last one did not. *)
Fixpoint chained (continues : option string -> bool)
    (cursor0 : option string) (log : ListLog) : Prop :=
  match log with
  | [] => False
  | (o, Normal r) :: rest =>
      o = {| opt_cursor := cursor0; opt_limit := 1000 |} /\
      match rest with
      | [] => continues (cursor r) = false
      | _ :: _ => continues (cursor r) = true /\ chained continues (cursor r) rest
      end
  | (_, Throw _) :: _ => False
  end.

(** A cursor is present. *)
Definition cursor_present (c : option string) : bool :=
  match c with Some _ => true | None => false end.

(** *** Observing every store call *)

(** A call the worker makes on the store. *)
Inductive KVCall : Type :=
| CallList (o : ListOptions)
| CallGet (key : string).

(** The store [kv] with every call, of either operation, written to a
    trace that rides along with the world, oldest call first. *)
Definition tracing {World : Type} (kv : KVNamespace World)
  : KVNamespace (World * list KVCall) :=
  {| kv_list := fun o wt =>
       let (r, w') := kv_list kv o (fst wt) in
       (r, (w', (snd wt ++ [CallList o])%list));
     kv_getWithMetadata := fun k wt =>
       let (r, w') := kv_getWithMetadata kv k (fst wt) in
       (r, (w', (snd wt ++ [CallGet k])%list)) |}.

(** A listing call that asks for 1000 keys. *)
Definition is_list_1000 (c : KVCall) : bool :=
  match c with
  | CallList o => (opt_limit o =? 1000)%Z
  | CallGet _ => false
  end.

(** What a log looks like when the enumeration fails with [e]: the calls
    are chained as in [chained], every call but the last resolved with a
    cursor that [continues], and the last call is the one that rejected
    with [e]. *)
Fixpoint chained_to_fault (continues : option string -> bool) (e : JsValue)
    (cursor0 : option string) (log : ListLog) : Prop :=
  match log with
  | [] => False
  | (o, Throw e') :: rest =>
      o = {| opt_cursor := cursor0; opt_limit := 1000 |} /\ e' = e /\ rest = []
  | (o, Normal r) :: rest =>
      o = {| opt_cursor := cursor0; opt_limit := 1000 |} /\
      continues (cursor r) = true /\
      chained_to_fault continues e (cursor r) rest
  end.

(** *** The alphabet of the digest *)

Definition is_lower_hex (a : ascii) : bool :=
  existsb (Ascii.eqb a) (list_ascii_of_string "0123456789abcdef").

Fixpoint all_lower_hex (s : string) : bool :=
  match s with
  | EmptyString => true
  | String a s' => is_lower_hex a && all_lower_hex s'
  end.

(** [n] double quotes in a row. *)
Fixpoint quotes (n : nat) : string :=
  match n with
  | O => EmptyString
  | S n' => String JsString.dquote (quotes n')
  end.

(** [n] slashes in a row. *)
Fixpoint slashes (n : nat) : string :=
  match n with
  | O => EmptyString
  | S n' => String "/" (slashes n')
  end.

(** The two responses of the handler on a stored document (lines 56 to
    63 and 66 to 74), for the statements below. *)
Definition not_modified (etag : string) : Response :=
  {| status := 304;
     headers := [("ETag", etag);
                 ("Access-Control-Allow-Origin", "*");
                 ("Access-Control-Expose-Headers", "ETag")];
     body := None |}.

Definition full_document (etag jsonString : string) : Response :=
  {| status := 200;
     headers := [("Content-Type", "application/json");
                 ("Access-Control-Allow-Origin", "*");
                 ("Cache-Control", "public, max-age=300");
                 ("ETag", etag)];
     body := Some jsonString |}.


(** A string made of double quotes only, the empty string included. *)
Fixpoint all_quotes (s : string) : bool :=
  match s with
  | EmptyString => true
  | String a s' => Ascii.eqb a JsString.dquote && all_quotes s'
  end.

(** The header as line 55 compares it: weak prefix and surrounding quotes
    removed (lines 49 to 52). *)
Definition normalize_validator (h : string) : string :=
  JsString.replace_surrounding_quotes (JsString.replace_weak_prefix h).

(** * Properties *)

(** ** Strings *)

Section StringFacts.

Import JsString.

Lemma append_nil_r (s : string) : s ++ EmptyString = s.
Proof. induction s as [|a s IH]; simpl; [reflexivity | now rewrite IH]. Qed.

Lemma append_assoc (s t u : string) : (s ++ t) ++ u = s ++ t ++ u.
Proof. induction s as [|a s IH]; simpl; [reflexivity | now rewrite IH]. Qed.

Lemma length_append (s t : string) :
  String.length (s ++ t) = String.length s + String.length t.
Proof. induction s as [|a s IH]; simpl; [reflexivity | now rewrite IH]. Qed.

Lemma substring_all (s : string) : substring 0 (String.length s) s = s.
Proof. induction s as [|a s IH]; simpl; [reflexivity | now rewrite IH]. Qed.

Lemma substring_append_r (pre suf : string) :
  substring (String.length pre) (String.length suf) (pre ++ suf) = suf.
Proof.
  induction pre as [|a pre IH]; simpl.
  - apply substring_all.
  - exact IH.
Qed.

Lemma substring_split (s : string) (n : nat) :
  n <= String.length s ->
  s = substring 0 n s ++ substring n (String.length s - n) s.
Proof.
  revert n; induction s as [|a s IH]; intros n Hn; simpl in *.
  - destruct n; reflexivity.
  - destruct n as [|n]; simpl.
    + now rewrite substring_all.
    + rewrite <- IH by lia. reflexivity.
Qed.

(** [endsWith] decides the suffix relation. *)
Lemma endsWith_has_suffix (s suf : string) :
  endsWith s suf = true <-> has_suffix s suf.
Proof.
  unfold endsWith, has_suffix; split.
  - destruct (Nat.leb_spec (String.length suf) (String.length s)) as [Hle|Hlt];
      [|discriminate].
    intros H; apply String.eqb_eq in H.
    exists (substring 0 (String.length s - String.length suf) s).
    rewrite (substring_split s (String.length s - String.length suf)) at 1 by lia.
    f_equal.
    replace (String.length s - (String.length s - String.length suf))
      with (String.length suf) by lia.
    exact H.
  - intros [pre ->].
    rewrite length_append.
    destruct (Nat.leb_spec (String.length suf)
                (String.length pre + String.length suf)) as [_|Hlt]; [|lia].
    replace (String.length pre + String.length suf - String.length suf)
      with (String.length pre) by lia.
    rewrite substring_append_r. apply String.eqb_refl.
Qed.

Lemma endsWith_append (pre suf : string) : endsWith (pre ++ suf) suf = true.
Proof. apply endsWith_has_suffix. now exists pre. Qed.

Lemma slice_run_length_slash (p : string) :
  slice (run_length "/" p) p = strip_leading_slashes p.
Proof.
  induction p as [|a p IH]; simpl; [reflexivity|].
  destruct (Ascii.eqb_spec a "/") as [->|Hne]; simpl.
  - exact IH.
  - destruct a as [[] [] [] [] [] [] [] []]; try reflexivity.
    now contradiction Hne.
Qed.

(** The anchored replace of line 34 strips the leading slashes. *)
Lemma replace_leading_run_slash (p : string) :
  replace_leading_run "/" p = strip_leading_slashes p.
Proof.
  unfold replace_leading_run.
  rewrite <- slice_run_length_slash.
  destruct (run_length "/" p); [destruct p|]; reflexivity.
Qed.

Lemma strip_leading_slashes_fixed (s : string) :
  run_length "/" s = 0 -> strip_leading_slashes s = s.
Proof.
  intros H. rewrite <- slice_run_length_slash, H. now destruct s.
Qed.

Lemma run_length_strip (p : string) :
  run_length "/" (strip_leading_slashes p) = 0.
Proof.
  rewrite <- slice_run_length_slash.
  induction p as [|a p IH]; simpl; [reflexivity|].
  destruct (Ascii.eqb_spec a "/") as [->|Hne]; simpl.
  - exact IH.
  - now apply Ascii.eqb_neq in Hne as ->.
Qed.

Lemma run_length_append_nonslash (s t : string) :
  run_length "/" s = 0 -> s <> EmptyString -> run_length "/" (s ++ t) = 0.
Proof.
  destruct s as [|a s]; simpl; [congruence|].
  now destruct (Ascii.eqb a "/").
Qed.

(** A path is its leading slashes followed by its stripped form. *)
Lemma path_decompose (p : string) :
  p = string_of_list_ascii (repeat "/"%char (leading_slashes p))
      ++ strip_leading_slashes p.
Proof.
  unfold leading_slashes.
  induction p as [|a p IH]; simpl; [reflexivity|].
  destruct (Ascii.eqb_spec a "/") as [->|Hne]; simpl.
  - now rewrite <- IH.
  - destruct a as [[] [] [] [] [] [] [] []]; try reflexivity.
    now contradiction Hne.
Qed.

Lemma append_inj_l (s1 s2 t : string) : s1 ++ t = s2 ++ t -> s1 = s2.
Proof.
  revert s2; induction s1 as [|a s1 IH]; intros [|b s2] H; simpl in *.
  - reflexivity.
  - apply (f_equal String.length) in H; simpl in H.
    rewrite length_append in H; lia.
  - apply (f_equal String.length) in H; simpl in H.
    rewrite length_append in H; lia.
  - injection H as -> H. f_equal. now apply IH.
Qed.

End StringFacts.

(** ** Key derivation *)

(** The key of a path in the words of the specification. *)
Lemma derive_key_unfold (p : string) :
  derive_key p =
  if JsString.endsWith (strip_leading_slashes p) ".json"
  then strip_leading_slashes p
  else strip_leading_slashes p ++ ".json".
Proof.
  unfold derive_key. rewrite replace_leading_run_slash.
  now destruct (JsString.endsWith (strip_leading_slashes p) ".json").
Qed.

Lemma derive_key_ends_json (p : string) :
  JsString.endsWith (derive_key p) ".json" = true.
Proof.
  rewrite derive_key_unfold.
  destruct (JsString.endsWith (strip_leading_slashes p) ".json") eqn:E.
  - exact E.
  - apply endsWith_append.
Qed.

Lemma derive_key_no_leading_slash (p : string) :
  JsString.run_length "/" (derive_key p) = 0.
Proof.
  rewrite derive_key_unfold.
  destruct (JsString.endsWith (strip_leading_slashes p) ".json").
  - apply run_length_strip.
  - destruct (strip_leading_slashes p) eqn:E; [reflexivity|].
    rewrite <- E. apply run_length_append_nonslash.
    + apply run_length_strip.
    + rewrite E; discriminate.
Qed.

(** C2. For every request path [p], the derived storage key is [p] with
    all its leading slashes stripped, followed by [.json] exactly when the
    stripped path does not already end with [.json]: a stripped path that
    ends with [.json] is the key as it stands.  The key always ends with
    [.json], and deriving the key of a key changes nothing.  The
    derivation is a function defined on every string, so it is total and
    deterministic. *)
Theorem derive_key_correct (p : string) :
  let s := strip_leading_slashes p in
  (has_suffix s ".json" -> derive_key p = s) /\
  (~ has_suffix s ".json" -> derive_key p = s ++ ".json") /\
  has_suffix (derive_key p) ".json" /\
  derive_key (derive_key p) = derive_key p /\
  (exists k, derive_key p = k /\ forall k', derive_key p = k' -> k' = k).
Proof.
  intros s; subst s; repeat split.
  - intros H. apply endsWith_has_suffix in H.
    now rewrite derive_key_unfold, H.
  - intros H. rewrite derive_key_unfold.
    destruct (JsString.endsWith (strip_leading_slashes p) ".json") eqn:E.
    + now apply endsWith_has_suffix in E.
    + reflexivity.
  - apply endsWith_has_suffix, derive_key_ends_json.
  - rewrite (derive_key_unfold (derive_key p)).
    rewrite (strip_leading_slashes_fixed _ (derive_key_no_leading_slash p)).
    now rewrite derive_key_ends_json.
  - exists (derive_key p); split; [reflexivity | now intros k' <-].
Qed.

(** Two paths that differ only in a trailing [.json] share a key, and so do
    two paths that differ only in their leading slashes. *)
Example derive_key_collisions :
  derive_key "/a" = derive_key "/a.json" /\ derive_key "/a" = derive_key "//a".
Proof. split; reflexivity. Qed.

(** C9, as stated, fails: the derivation is not injective on all paths. *)
Lemma derive_key_not_injective :
  ~ (forall p1 p2 : string, p1 <> p2 -> derive_key p1 <> derive_key p2).
Proof.
  intros H. apply (H "/a" "/a.json"); [discriminate | reflexivity].
Qed.

(** The derivation is injective on paths that start with the same number
    of slashes and whose stripped forms agree on ending with [.json]: two
    distinct such paths have distinct keys.  In particular it is injective
    on the paths with one leading slash and no [.json]. *)
Theorem derive_key_injective_canonical (p1 p2 : string) :
  leading_slashes p1 = leading_slashes p2 ->
  JsString.endsWith (strip_leading_slashes p1) ".json"
  = JsString.endsWith (strip_leading_slashes p2) ".json" ->
  p1 <> p2 ->
  derive_key p1 <> derive_key p2.
Proof.
  intros Hn Hs Hne Hk. apply Hne.
  rewrite (path_decompose p1), (path_decompose p2), Hn. f_equal.
  rewrite !derive_key_unfold, Hs in Hk.
  destruct (JsString.endsWith (strip_leading_slashes p2) ".json").
  - exact Hk.
  - now apply append_inj_l in Hk.
Qed.

Lemma derive_key_injective_canonical_witness :
  derive_key "/docs/a" <> derive_key "/docs/b".
Proof.
  apply (derive_key_injective_canonical "/docs/a" "/docs/b");
    [reflexivity | reflexivity | discriminate].
Defined.

Lemma endsWith_false_append (s t : string) :
  JsString.endsWith s ".json" = false -> s <> t ++ ".json".
Proof.
  intros H E. rewrite E, endsWith_append in H. discriminate.
Qed.

(** When two paths have the same key, in terms of their stripped forms. *)
Lemma derive_key_eq_cases (p1 p2 : string) :
  derive_key p1 = derive_key p2 <->
  strip_leading_slashes p1 = strip_leading_slashes p2 \/
  (strip_leading_slashes p1 = strip_leading_slashes p2 ++ ".json" /\
   ~ has_suffix (strip_leading_slashes p2) ".json") \/
  (strip_leading_slashes p2 = strip_leading_slashes p1 ++ ".json" /\
   ~ has_suffix (strip_leading_slashes p1) ".json").
Proof.
  rewrite !derive_key_unfold.
  destruct (JsString.endsWith (strip_leading_slashes p1) ".json") eqn:E1,
           (JsString.endsWith (strip_leading_slashes p2) ".json") eqn:E2.
  - apply endsWith_has_suffix in E1, E2.
    split; [now left|]. intros [H|[[_ H]|[_ H]]]; [exact H | contradiction..].
  - pose proof E1 as S1. apply endsWith_has_suffix in S1.
    split.
    + intros H. right; left. split; [exact H|].
      intros S2. apply endsWith_has_suffix in S2. congruence.
    + intros [H|[[H _]|[_ H]]]; [|exact H|contradiction].
      rewrite H in E1. congruence.
  - pose proof E2 as S2. apply endsWith_has_suffix in S2.
    split.
    + intros H. right; right. split; [now symmetry|].
      intros S1. apply endsWith_has_suffix in S1. congruence.
    + intros [H|[[_ H]|[H _]]]; [|contradiction|now symmetry].
      rewrite H in E1. congruence.
  - split.
    + intros H. left. now apply append_inj_l in H.
    + intros [H|[[H _]|[H _]]]; [now rewrite H| |].
      * now apply endsWith_false_append in H.
      * now apply endsWith_false_append in H.
Qed.

(** C9, amended.  Two distinct request paths have distinct storage keys,
    except when their slash-stripped forms are equal, so that the paths
    differ in their leading slashes only, or when one stripped form is the
    other followed by [.json], the other not ending in [.json]: in these
    cases, and in no other, the two paths have the same key. *)
Theorem derive_key_injective_exact (p1 p2 : string) :
  p1 <> p2 ->
  let s1 := strip_leading_slashes p1 in
  let s2 := strip_leading_slashes p2 in
  let excepted :=
    s1 = s2 \/
    (s1 = s2 ++ ".json" /\ ~ has_suffix s2 ".json") \/
    (s2 = s1 ++ ".json" /\ ~ has_suffix s1 ".json") in
  (~ excepted -> derive_key p1 <> derive_key p2) /\
  (excepted -> derive_key p1 = derive_key p2).
Proof.
  intros _ s1 s2 excepted. subst s1 s2 excepted. split.
  - intros Hn E. apply Hn. now apply derive_key_eq_cases.
  - intros H. now apply derive_key_eq_cases.
Qed.

Lemma derive_key_injective_exact_witness :
  derive_key "/a" <> derive_key "//b.json" /\
  derive_key "/a" = derive_key "//a.json".
Proof.
  split.
  - apply (proj1 (derive_key_injective_exact "/a" "//b.json" ltac:(discriminate))).
    intros [H|[[H _]|[H _]]]; discriminate H.
  - apply (proj2 (derive_key_injective_exact "/a" "//a.json" ltac:(discriminate))).
    right; right. split; [reflexivity|]. intros [pre H].
    destruct pre as [|a pre]; [discriminate H|].
    cbn in H. injection H as _ H. destruct pre; discriminate H.
Defined.

(** ** JSON texts *)

Lemma plain_cons (a : ascii) (s : string) :
  plain (String a s)
  = negb (Ascii.eqb a JsString.dquote) && negb (Ascii.eqb a "\")
    && (32 <=? nat_of_ascii a)%nat && plain s.
Proof. reflexivity. Qed.

Lemma escape_all_plain (s : string) : plain s = true -> escape_all s = s.
Proof.
  induction s as [|a s IH]; [reflexivity|].
  rewrite plain_cons. cbn [escape_all].
  intros H. apply andb_true_iff in H as [H Hs].
  apply andb_true_iff in H as [H H32].
  apply andb_true_iff in H as [Hq Hb].
  rewrite (IH Hs). unfold escape.
  apply negb_true_iff in Hq, Hb. rewrite Hq, Hb.
  apply Nat.leb_le in H32.
  destruct (Nat.eqb_spec (nat_of_ascii a) 8); [lia|].
  destruct (Nat.eqb_spec (nat_of_ascii a) 9); [lia|].
  destruct (Nat.eqb_spec (nat_of_ascii a) 10); [lia|].
  destruct (Nat.eqb_spec (nat_of_ascii a) 12); [lia|].
  destruct (Nat.eqb_spec (nat_of_ascii a) 13); [lia|].
  destruct (Nat.ltb_spec (nat_of_ascii a) 32); [lia|].
  reflexivity.
Qed.

Lemma quote_plain (s : string) : plain s = true -> quote s = quoted s.
Proof. intros H. unfold quote, quoted. now rewrite escape_all_plain. Qed.

Lemma plain_append (s t : string) : plain (s ++ t) = plain s && plain t.
Proof.
  induction s as [|a s IH]; [reflexivity|].
  cbn [append]. rewrite !plain_cons, IH. now rewrite !andb_assoc.
Qed.

(** ** The quotes and the weak prefix of a validator *)

Lemma replace_weak_prefix_quoted (t : string) :
  JsString.replace_weak_prefix (quoted t) = quoted t.
Proof. reflexivity. Qed.

Lemma replace_weak_prefix_weak (s : string) :
  JsString.replace_weak_prefix ("W/" ++ s) = s.
Proof. unfold JsString.replace_weak_prefix. now destruct s. Qed.

Example replace_surrounding_quotes_inner :
  JsString.replace_surrounding_quotes
    (quoted (quoted ("a" ++ quoted EmptyString ++ "b")))
  = "a" ++ quoted EmptyString ++ "b".
Proof. reflexivity. Qed.

Example replace_weak_prefix_once :
  JsString.replace_weak_prefix ("W/W/" ++ quoted "t") = "W/" ++ quoted "t" /\
  JsString.replace_weak_prefix ("w/" ++ quoted "t") = "w/" ++ quoted "t".
Proof. split; reflexivity. Qed.

Lemma quote_free_append (s t : string) :
  quote_free (s ++ t) = quote_free s && quote_free t.
Proof.
  induction s as [|a s IH]; cbn; [reflexivity|].
  now rewrite IH, andb_assoc.
Qed.

Lemma quotes_to_end_other (a : ascii) (t : string) :
  Ascii.eqb a JsString.dquote = false ->
  JsString.quotes_to_end (String a t) = false.
Proof. intros H. cbn. rewrite H. now destruct t. Qed.

Lemma replace_trailing_quotes_quote_free (s : string) :
  quote_free s = true ->
  JsString.replace_trailing_quotes (s ++ String JsString.dquote EmptyString) = s.
Proof.
  induction s as [|a s IH]; [reflexivity|].
  cbn [quote_free append]. intros H.
  apply andb_true_iff in H as [Ha Hs]. apply negb_true_iff in Ha.
  cbn [JsString.replace_trailing_quotes].
  now rewrite (quotes_to_end_other _ _ Ha), (IH Hs).
Qed.

(** Stripping the quotes of a quoted string gives the string back when it
    has no quote of its own. *)
Lemma replace_surrounding_quotes_quoted (s : string) :
  quote_free s = true -> JsString.replace_surrounding_quotes (quoted s) = s.
Proof.
  intros H. unfold JsString.replace_surrounding_quotes, quoted.
  assert (Hrun : JsString.run_length JsString.dquote
                   (s ++ String JsString.dquote EmptyString) = 0 \/ s = EmptyString).
  { destruct s as [|a s]; [now right|left].
    cbn in H. apply andb_true_iff in H as [Ha _].
    apply negb_true_iff in Ha. cbn. now rewrite Ha. }
  destruct Hrun as [Hrun| ->]; [|reflexivity].
  cbn [JsString.run_length]. rewrite Ascii.eqb_refl, Hrun.
  cbn [JsString.slice]. now apply replace_trailing_quotes_quote_free.
Qed.

Lemma hex_digit_quote_free (d : Z) :
  Ascii.eqb (Sha1.hex_digit d) JsString.dquote = false.
Proof.
  unfold Sha1.hex_digit. generalize (Z.to_nat d) as n. intros n.
  do 16 (destruct n as [|n]; [reflexivity|]). reflexivity.
Qed.

Lemma toString16_loop_quote_free fuel : forall n acc,
  quote_free acc = true -> quote_free (Sha1.toString16_loop fuel n acc) = true.
Proof.
  induction fuel as [|fuel IH]; intros n acc H; cbn [Sha1.toString16_loop].
  - cbn [quote_free]. now rewrite hex_digit_quote_free.
  - destruct (n / 16 =? 0)%Z.
    + cbn [quote_free]. now rewrite hex_digit_quote_free.
    + apply IH. cbn [quote_free]. now rewrite hex_digit_quote_free.
Qed.

Lemma padStart_quote_free k (s : string) :
  quote_free s = true -> quote_free (Sha1.padStart k "0" s) = true.
Proof.
  intros H. unfold Sha1.padStart. rewrite quote_free_append, H, andb_true_r.
  induction (k - String.length s) as [|m IH]; [reflexivity | exact IH].
Qed.

Lemma hex_quote_free (bytes : list Z) : quote_free (Sha1.hex bytes) = true.
Proof.
  unfold Sha1.hex.
  induction bytes as [|b bytes IH]; [reflexivity|].
  assert (Hb : quote_free (Sha1.padStart 2 "0" (Sha1.toString16 b)) = true)
    by (apply padStart_quote_free, toString16_loop_quote_free; reflexivity).
  cbn [map String.concat].
  destruct (map (fun b0 => Sha1.padStart 2 "0" (Sha1.toString16 b0)) bytes)
    as [|x xs] eqn:E; [exact Hb|].
  rewrite !quote_free_append, Hb, IH. reflexivity.
Qed.

(** The digest is made of hexadecimal digits, so the comparison of line 55
    is against the bare digest. *)
Lemma normalizedEtag_sha1 (jsonString : string) :
  JsString.replace_surrounding_quotes (quoted (sha1 jsonString)) = sha1 jsonString.
Proof. apply replace_surrounding_quotes_quoted, hex_quote_free. Qed.

(** ** The handler on the document route *)

Arguments sha1 : simpl never.

(** Serialising strings never throws. *)
Lemma JSON_stringify_keys (ks : list string) :
  JSON_stringify (JsArray (map JsString ks))
  = Normal (stringify (JsArray (map JsString ks))).
Proof.
  unfold JSON_stringify.
  assert (H : stringify_fault (JsArray (map JsString ks)) = None).
  { cbn [stringify_fault]. induction ks as [|k ks IH]; [reflexivity | exact IH]. }
  now rewrite H.
Qed.

Lemma JSON_stringify_error (s : string) :
  JSON_stringify (JsObject [("error", JsString s)])
  = Normal (stringify (JsObject [("error", JsString s)])).
Proof. reflexivity. Qed.

(** The handler on the document route, the serialisation of the 404 body
    done. *)
Lemma fetch_document_route {World : Type} fuel request (env : Env World) w :
  (url_pathname request =? "/list-keys") = false ->
  fetch fuel request env w =
  let key := derive_key (url_pathname request) in
  match kv_getWithMetadata (APP_JSON env) key w with
  | (Throw e, w') => Some (Throw e, w')
  | (Normal object, w') =>
      let notFound :=
        {| status := 404;
           headers := [("Content-Type", "application/json")];
           body := stringify
                     (JsObject [("error",
                                 JsString ("JSON not found for key: " ++ key))]) |} in
      match object with
      | None => Some (Normal notFound, w')
      | Some o =>
          match value o with
          | None => Some (Normal notFound, w')
          | Some jsonString =>
              if jsonString =? EmptyString then Some (Normal notFound, w')
              else
                let etag := quoted (sha1 jsonString) in
                let ifNoneMatch :=
                  option_map (fun h => JsString.replace_surrounding_quotes
                                         (JsString.replace_weak_prefix h))
                             (header_If_None_Match request) in
                let normalizedEtag := JsString.replace_surrounding_quotes etag in
                if match ifNoneMatch with
                   | Some x => x =? normalizedEtag
                   | None => false
                   end
                then
                  Some (Normal {| status := 304;
                                  headers := [("ETag", etag);
                                              ("Access-Control-Allow-Origin", "*");
                                              ("Access-Control-Expose-Headers", "ETag")];
                                  body := None |},
                        w')
                else
                  Some (Normal {| status := 200;
                                  headers := [("Content-Type", "application/json");
                                              ("Access-Control-Allow-Origin", "*");
                                              ("Cache-Control", "public, max-age=300");
                                              ("ETag", etag)];
                                  body := Some jsonString |},
                        w')
          end
      end
  end.
Proof.
  intros Hp. unfold fetch. rewrite Hp. cbv zeta.
  rewrite JSON_stringify_error. reflexivity.
Qed.

(** The handler on the [/list-keys] route, the serialisation of the key
    list done. *)
Lemma fetch_list_keys_route {World : Type} fuel request (env : Env World) w :
  (url_pathname request =? "/list-keys") = true ->
  fetch fuel request env w =
  match listAllKeys fuel (APP_JSON env) w with
  | None => None
  | Some (Normal allKeys, w') =>
      Some (Normal {| status := 200;
                      headers := [("Content-Type", "application/json");
                                  ("Access-Control-Allow-Origin", "*")];
                      body := stringify (JsArray (map JsString allKeys)) |},
            w')
  | Some (Throw err, w') =>
      match errorMessage_of err with
      | Throw e => Some (Throw e, w')
      | Normal errorMessage =>
          match stringify_fault
                  (JsObject [("error", JsString "Failed to list keys");
                             ("details", errorMessage)]) with
          | Some e => Some (Throw e, w')
          | None =>
              Some (Normal {| status := 500;
                              headers := [("Content-Type", "application/json")];
                              body := stringify
                                        (JsObject [("error", JsString "Failed to list keys");
                                                   ("details", errorMessage)]) |},
                    w')
          end
      end
  end.
Proof.
  intros Hp. unfold fetch. rewrite Hp. cbv zeta.
  destruct (listAllKeys fuel (APP_JSON env) w) as [[[ks|err] w1]|];
    [| |reflexivity].
  - now rewrite JSON_stringify_keys.
  - destruct (errorMessage_of err) as [m|e]; [|reflexivity].
    unfold JSON_stringify.
    now destruct (stringify_fault _).
Qed.

Section HandlerFacts.

Context {World : Type}.
Implicit Types (env : Env World) (w : World) (request : Request).

Lemma not_list_keys (p : string) :
  p <> "/list-keys" -> (p =? "/list-keys") = false.
Proof. intros H. now apply String.eqb_neq. Qed.

(** C3. For every request path other than [/list-keys] whose derived key
    has no stored entry, or whose stored value is absent or empty, the
    handler answers with status 404 and the body
    [{ error: JSON not found for key: KEY }] in JSON, [KEY] being the
    derived storage key: the text of [JSON.stringify], which is the key
    between quotes as it stands whenever the key holds no double quote, no
    backslash and no control character. *)
Theorem fetch_not_found fuel request env w object w' :
  url_pathname request <> "/list-keys" ->
  kv_getWithMetadata (APP_JSON env) (derive_key (url_pathname request)) w
  = (Normal object, w') ->
  (object = None \/
   exists o, object = Some o /\ (value o = None \/ value o = Some EmptyString)) ->
  let key := derive_key (url_pathname request) in
  exists r,
    fetch fuel request env w = Some (Normal r, w') /\
    status r = 404%Z /\
    body r = stringify (JsObject [("error", JsString ("JSON not found for key: " ++ key))]) /\
    body r = Some ("{" ++ quoted "error" ++ ":"
                       ++ quote ("JSON not found for key: " ++ key) ++ "}") /\
    (plain key = true ->
     body r = Some ("{" ++ quoted "error" ++ ":"
                        ++ quoted ("JSON not found for key: " ++ key) ++ "}")).
Proof.
  intros Hp Hget Hobj key; subst key.
  exists {| status := 404;
            headers := [("Content-Type", "application/json")];
            body := stringify
                      (JsObject [("error",
                                  JsString ("JSON not found for key: " ++ derive_key (url_pathname request)))]) |}.
  assert (Hbody :
    stringify (JsObject [("error", JsString ("JSON not found for key: " ++ derive_key (url_pathname request)))])
    = Some ("{" ++ quoted "error" ++ ":"
                ++ quote ("JSON not found for key: " ++ derive_key (url_pathname request)) ++ "}")).
  { cbn [stringify flat_map map app String.concat].
    rewrite (quote_plain "error") by reflexivity.
    now rewrite !append_assoc. }
  split; [|split; [reflexivity|split; [reflexivity|split]]].
  - unfold fetch. rewrite (not_list_keys _ Hp). rewrite Hget.
    destruct Hobj as [->|[o [-> [Hv|Hv]]]]; [reflexivity| |]; now rewrite Hv.
  - exact Hbody.
  - intros Hk. cbn [body]. rewrite Hbody.
    rewrite (quote_plain ("JSON not found for key: " ++ _)); [reflexivity|].
    rewrite plain_append, Hk. reflexivity.
Qed.

(** The handler on a stored, non-empty document. *)
Lemma fetch_document fuel request env w o jsonString w' :
  url_pathname request <> "/list-keys" ->
  kv_getWithMetadata (APP_JSON env) (derive_key (url_pathname request)) w
  = (Normal (Some o), w') ->
  value o = Some jsonString ->
  jsonString <> EmptyString ->
  fetch fuel request env w =
  let etag := quoted (sha1 jsonString) in
  if match option_map (fun h => JsString.replace_surrounding_quotes
                                  (JsString.replace_weak_prefix h))
                      (header_If_None_Match request) with
     | Some x => x =? JsString.replace_surrounding_quotes etag
     | None => false
     end
  then Some (Normal {| status := 304;
                       headers := [("ETag", etag);
                                   ("Access-Control-Allow-Origin", "*");
                                   ("Access-Control-Expose-Headers", "ETag")];
                       body := None |}, w')
  else Some (Normal {| status := 200;
                       headers := [("Content-Type", "application/json");
                                   ("Access-Control-Allow-Origin", "*");
                                   ("Cache-Control", "public, max-age=300");
                                   ("ETag", etag)];
                       body := Some jsonString |}, w').
Proof.
  intros Hp Hget Hv Hne.
  unfold fetch. rewrite (not_list_keys _ Hp), Hget, Hv.
  apply String.eqb_neq in Hne. now rewrite Hne.
Qed.

(** On a stored document the answer is 304 exactly when the header, its
    weak prefix and its surrounding quotes removed, is the digest. *)
Lemma fetch_conditional fuel request env w o jsonString w' h :
  url_pathname request <> "/list-keys" ->
  kv_getWithMetadata (APP_JSON env) (derive_key (url_pathname request)) w
  = (Normal (Some o), w') ->
  value o = Some jsonString ->
  jsonString <> EmptyString ->
  header_If_None_Match request = Some h ->
  exists r,
    fetch fuel request env w = Some (Normal r, w') /\
    (status r = 304%Z \/ status r = 200%Z) /\
    (status r = 304%Z <->
     JsString.replace_surrounding_quotes (JsString.replace_weak_prefix h)
     = sha1 jsonString).
Proof.
  intros Hp Hget Hv Hne Hh.
  rewrite (fetch_document _ _ _ _ _ _ _ Hp Hget Hv Hne), Hh.
  cbn [option_map]. cbv zeta. rewrite normalizedEtag_sha1.
  destruct (String.eqb_spec
              (JsString.replace_surrounding_quotes (JsString.replace_weak_prefix h))
              (sha1 jsonString)) as [E|E];
    eexists; (split; [reflexivity|]); cbn [status].
  - split; [now left | tauto].
  - split; [now right|]. split; [discriminate | tauto].
Qed.

(** C10. For every request whose path is not [/list-keys] and whose derived
    key has a non-empty stored value, a request without an [If-None-Match]
    header is answered with the full 200 response and the document as its
    body; and whatever the request, a 304 answer implies that the client
    sent the header. *)
Theorem fetch_unconditional fuel request env w :
  (forall o jsonString w',
      url_pathname request <> "/list-keys" ->
      header_If_None_Match request = None ->
      kv_getWithMetadata (APP_JSON env) (derive_key (url_pathname request)) w
      = (Normal (Some o), w') ->
      value o = Some jsonString ->
      jsonString <> EmptyString ->
      fetch fuel request env w
      = Some (Normal {| status := 200;
                        headers := [("Content-Type", "application/json");
                                    ("Access-Control-Allow-Origin", "*");
                                    ("Cache-Control", "public, max-age=300");
                                    ("ETag", quoted (sha1 jsonString))];
                        body := Some jsonString |}, w')) /\
  (forall r w',
      fetch fuel request env w = Some (Normal r, w') ->
      status r = 304%Z ->
      header_If_None_Match request <> None).
Proof.
  split.
  - intros o jsonString w' Hp Hh Hget Hv Hne.
    rewrite (fetch_document _ _ _ _ _ _ _ Hp Hget Hv Hne), Hh. reflexivity.
  - intros r w' Hf Hs Hh.
    destruct (url_pathname request =? "/list-keys") eqn:Hp.
    + rewrite (fetch_list_keys_route _ _ _ _ Hp) in Hf.
      destruct (listAllKeys fuel (APP_JSON env) w) as [[[ks|e] w1]|];
        [| |discriminate].
      * injection Hf as <- _; discriminate Hs.
      * destruct (errorMessage_of e) as [m|e']; [|discriminate].
        destruct (stringify_fault _); [discriminate|].
        injection Hf as <- _; discriminate Hs.
    + rewrite (fetch_document_route _ _ _ _ Hp) in Hf. cbv zeta in Hf.
      rewrite Hh in Hf.
      destruct (kv_getWithMetadata (APP_JSON env)
                  (derive_key (url_pathname request)) w) as [[[o|]|e] w1];
        [| |discriminate].
      * destruct (value o) as [s|];
          [destruct (s =? EmptyString)|]; cbn in Hf;
          injection Hf as <- _; discriminate Hs.
      * injection Hf as <- _; discriminate Hs.
Qed.

(** C4. Round trip: when an unconditional fetch of a stored document has
    answered with an [ETag], and the same document is still stored, the
    request that sends this token as [If-None-Match] is answered with 304,
    no body, the token in [ETag], and [Access-Control-Expose-Headers: ETag]. *)
Theorem fetch_round_trip fuel p env w r1 w1 t o w2 :
  fetch fuel {| url_pathname := p; header_If_None_Match := None |} env w
  = Some (Normal r1, w1) ->
  headers_get "ETag" (headers r1) = Some t ->
  kv_getWithMetadata (APP_JSON env) (derive_key p) w1 = (Normal (Some o), w2) ->
  value o = body r1 ->
  fetch fuel {| url_pathname := p; header_If_None_Match := Some t |} env w1
  = Some (Normal {| status := 304;
                    headers := [("ETag", t);
                                ("Access-Control-Allow-Origin", "*");
                                ("Access-Control-Expose-Headers", "ETag")];
                    body := None |}, w2).
Proof.
  intros Hf Ht Hget Hsame.
  assert (Hfirst : p <> "/list-keys" /\ exists jsonString,
             jsonString <> EmptyString /\ body r1 = Some jsonString /\
             t = quoted (sha1 jsonString)).
  { destruct (p =? "/list-keys") eqn:Hp.
    - rewrite (fetch_list_keys_route fuel
                 {| url_pathname := p; header_If_None_Match := None |} env w Hp)
        in Hf.
      destruct (listAllKeys fuel (APP_JSON env) w) as [[[ks|e] w0]|];
        [| |discriminate].
      + injection Hf as <- _; discriminate Ht.
      + destruct (errorMessage_of e) as [m|e']; [|discriminate].
        destruct (stringify_fault _); [discriminate|].
        injection Hf as <- _; discriminate Ht.
    - rewrite (fetch_document_route fuel
                 {| url_pathname := p; header_If_None_Match := None |} env w Hp)
        in Hf.
      cbn [url_pathname header_If_None_Match option_map] in Hf. cbv zeta in Hf.
      apply String.eqb_neq in Hp.
      split; [exact Hp|].
      destruct (kv_getWithMetadata (APP_JSON env) (derive_key p) w)
        as [[[o0|]|e] w0]; [| |discriminate].
      + destruct (value o0) as [s|].
        * destruct (s =? EmptyString) eqn:Hs.
          -- injection Hf as <- _; discriminate Ht.
          -- injection Hf as <- _. cbn in Ht. injection Ht as <-.
             exists s. apply String.eqb_neq in Hs. now repeat split.
        * injection Hf as <- _; discriminate Ht.
      + injection Hf as <- _; discriminate Ht. }
  destruct Hfirst as [Hp [jsonString [Hne [Hb ->]]]].
  rewrite Hb in Hsame.
  rewrite (fetch_document fuel
             {| url_pathname := p;
                header_If_None_Match := Some (quoted (sha1 jsonString)) |}
             env w1 o jsonString w2 Hp Hget Hsame Hne).
  cbn [header_If_None_Match option_map].
  rewrite replace_weak_prefix_quoted, String.eqb_refl. reflexivity.
Qed.

End HandlerFacts.

(** ** The enumeration loop *)

Lemma listAllKeys_loop_unfold {World : Type} fuel (kv : KVNamespace World)
    keys0 cursor0 (w : World) :
  listAllKeys_loop (S fuel) kv keys0 cursor0 w =
  match kv_list kv {| opt_cursor := cursor0; opt_limit := 1000 |} w with
  | (Throw e, w') => Some (Throw e, w')
  | (Normal listResponse, w') =>
      if cursor_truthy (cursor listResponse)
      then listAllKeys_loop fuel kv (keys0 ++ map name (keys listResponse))%list
             (cursor listResponse) w'
      else Some (Normal (keys0 ++ map name (keys listResponse))%list, w')
  end.
Proof. reflexivity. Qed.

Section LoopFacts.

Context {World : Type}.
Implicit Types (kv : KVNamespace World) (w : World) (log : ListLog).

(** More fuel does not change the outcome of a loop that has ended. *)
Lemma listAllKeys_loop_mono fuel : forall kv keys0 cursor0 w out fuel',
  listAllKeys_loop fuel kv keys0 cursor0 w = Some out ->
  fuel <= fuel' ->
  listAllKeys_loop fuel' kv keys0 cursor0 w = Some out.
Proof.
  induction fuel as [|fuel IH]; intros kv keys0 cursor0 w out fuel' H Hle;
    [discriminate|].
  destruct fuel' as [|fuel']; [lia|].
  rewrite listAllKeys_loop_unfold in H. rewrite listAllKeys_loop_unfold.
  destruct (kv_list kv _ w) as [[r|e] w1]; [|exact H].
  destruct (cursor_truthy (cursor r)); [|exact H].
  apply (IH _ _ _ _ _ _ H). lia.
Qed.

(** The logged store answers as the store does, and the log grows by the
    calls made: a chain of calls that starts from the loop's cursor. *)
Lemma listAllKeys_loop_logged fuel : forall kv keys0 cursor0 w log0 ks w' log,
  listAllKeys_loop fuel (logging kv) keys0 cursor0 (w, log0)
  = Some (Normal ks, (w', log)) ->
  exists calls,
    log = (log0 ++ calls)%list /\
    chained cursor_truthy cursor0 calls /\
    ks = (keys0 ++ logged_names calls)%list /\
    List.length calls <= fuel /\
    listAllKeys_loop (List.length calls) kv keys0 cursor0 w = Some (Normal ks, w').
Proof.
  induction fuel as [|fuel IH]; intros kv keys0 cursor0 w log0 ks w' log H;
    [discriminate|].
  rewrite listAllKeys_loop_unfold in H. cbn [logging kv_list fst snd] in H.
  destruct (kv_list kv {| opt_cursor := cursor0; opt_limit := 1000 |} w)
    as [[r|e] w1] eqn:Hcall; [|discriminate].
  destruct (cursor_truthy (cursor r)) eqn:Hc.
  - destruct (IH _ _ _ _ _ _ _ _ H) as [calls [-> [Hch [-> [Hlen Hrun]]]]].
    exists ((({| opt_cursor := cursor0; opt_limit := 1000 |}, Normal r)) :: calls).
    split; [|split; [|split; [|split]]].
    + now rewrite <- app_assoc.
    + cbn [chained]. split; [reflexivity|].
      destruct calls as [|c calls]; [destruct Hch|]. now split.
    + unfold logged_names. cbn [flat_map snd]. now rewrite <- app_assoc.
    + cbn [List.length]. lia.
    + cbn [List.length]. rewrite listAllKeys_loop_unfold, Hcall, Hc. exact Hrun.
  - injection H as <- <- <-.
    exists [({| opt_cursor := cursor0; opt_limit := 1000 |}, Normal r)].
    split; [|split; [|split; [|split]]].
    + reflexivity.
    + cbn [chained]. now split.
    + unfold logged_names. cbn [flat_map snd]. now rewrite app_nil_r.
    + cbn [List.length]. lia.
    + cbn [List.length]. now rewrite listAllKeys_loop_unfold, Hcall, Hc.
Qed.

(** Whatever the loop does on a store it does on the logged store. *)
Lemma listAllKeys_loop_logging fuel : forall kv keys0 cursor0 w log0 out w',
  listAllKeys_loop fuel kv keys0 cursor0 w = Some (out, w') ->
  exists calls,
    listAllKeys_loop fuel (logging kv) keys0 cursor0 (w, log0)
    = Some (out, (w', (log0 ++ calls)%list)).
Proof.
  induction fuel as [|fuel IH]; intros kv keys0 cursor0 w log0 out w' H;
    [discriminate|].
  rewrite listAllKeys_loop_unfold in H. rewrite listAllKeys_loop_unfold.
  cbn [logging kv_list fst snd].
  destruct (kv_list kv {| opt_cursor := cursor0; opt_limit := 1000 |} w)
    as [[r|e] w1] eqn:Hcall; cbv beta iota.
  - destruct (cursor_truthy (cursor r)) eqn:Hc.
    + destruct (IH _ _ _ _
                  (log0 ++ [({| opt_cursor := cursor0; opt_limit := 1000 |},
                             Normal r)])%list _ _ H) as [calls Hrun].
      exists (({| opt_cursor := cursor0; opt_limit := 1000 |}, Normal r) :: calls).
      etransitivity; [exact Hrun|]. now rewrite <- app_assoc.
    + injection H as <- <-. eexists. reflexivity.
  - injection H as <- <-. eexists. reflexivity.
Qed.

(** A loop stops no later than the first call that comes without a
    cursor. *)
Lemma listAllKeys_loop_stops n : forall kv keys0 cursor0 w r w',
  nth_list_call kv n cursor0 w = (Normal r, w') ->
  cursor_truthy (cursor r) = false ->
  exists fuel ks w'',
    fuel <= S n /\
    listAllKeys_loop fuel kv keys0 cursor0 w = Some (Normal ks, w'').
Proof.
  induction n as [|n IH]; intros kv keys0 cursor0 w r w' Hn Hc; cbn in Hn.
  - exists 1, (keys0 ++ map name (keys r))%list, w'. split; [lia|].
    now rewrite listAllKeys_loop_unfold, Hn, Hc.
  - destruct (kv_list kv {| opt_cursor := cursor0; opt_limit := 1000 |} w)
      as [[r0|e] w0] eqn:Hcall; [|discriminate].
    destruct (cursor_truthy (cursor r0)) eqn:Hc0.
    + destruct (IH kv (keys0 ++ map name (keys r0))%list _ _ _ _ Hn Hc)
        as [fuel [ks [w'' [Hle Hrun]]]].
      exists (S fuel), ks, w''. split; [lia|].
      now rewrite listAllKeys_loop_unfold, Hcall, Hc0.
    + exists 1, (keys0 ++ map name (keys r0))%list, w0. split; [lia|].
      now rewrite listAllKeys_loop_unfold, Hcall, Hc0.
Qed.

(** A fault that ends the loop is the fault of one of its listing calls. *)
Lemma listAllKeys_loop_fault fuel : forall kv keys0 cursor0 w e w',
  listAllKeys_loop fuel kv keys0 cursor0 w = Some (Throw e, w') ->
  exists n, n < fuel /\ nth_list_call kv n cursor0 w = (Throw e, w').
Proof.
  induction fuel as [|fuel IH]; intros kv keys0 cursor0 w e w' H;
    [discriminate|].
  rewrite listAllKeys_loop_unfold in H.
  destruct (kv_list kv {| opt_cursor := cursor0; opt_limit := 1000 |} w)
    as [[r0|e0] w0] eqn:Hcall.
  - destruct (cursor_truthy (cursor r0)); [|discriminate].
    destruct (IH _ _ _ _ _ _ H) as [n [Hlt Hn]]. exists (S n). split; [lia|].
    cbn. now rewrite Hcall.
  - injection H as <- <-. exists 0. split; [lia|exact Hcall].
Qed.

End LoopFacts.

(** *** The stores with a known number of pages *)

Lemma countdown_store_loop n : forall keys0 cursor0,
  listAllKeys_loop (S n) countdown_store keys0 cursor0 n
  = Some (Normal (keys0 ++ repeat "k" (S n))%list, 0) /\
  listAllKeys_loop n countdown_store keys0 cursor0 n = None.
Proof.
  induction n as [|n IH]; intros keys0 cursor0.
  - split; reflexivity.
  - split.
    + rewrite listAllKeys_loop_unfold. cbn [countdown_store kv_list cursor keys].
      cbn [cursor_truthy String.eqb negb Nat.pred map name].
      rewrite (proj1 (IH _ _)), <- app_assoc. reflexivity.
    + rewrite listAllKeys_loop_unfold. cbn [countdown_store kv_list cursor keys].
      cbn [cursor_truthy String.eqb negb Nat.pred map name].
      apply IH.
Qed.

Lemma endless_store_loop fuel : forall keys0 cursor0,
  listAllKeys_loop fuel endless_store keys0 cursor0 tt = None.
Proof.
  induction fuel as [|fuel IH]; intros keys0 cursor0; [reflexivity|].
  rewrite listAllKeys_loop_unfold. cbn [endless_store kv_list cursor keys].
  cbn [cursor_truthy String.eqb negb]. apply IH.
Qed.

(** *** The in-memory store *)

Lemma decode_encode_cursor (n : nat) : decode_cursor (encode_cursor n) = Some n.
Proof.
  unfold decode_cursor, encode_cursor.
  destruct (Nat.to_uint n) eqn:E;
    try (rewrite NilZero.usu by discriminate; cbn [option_map];
         now rewrite <- E, DecimalNat.Unsigned.of_to).
  apply (f_equal Nat.of_uint) in E.
  rewrite DecimalNat.Unsigned.of_to in E. now subst n.
Qed.

Lemma encode_cursor_truthy (n : nat) :
  cursor_truthy (Some (encode_cursor n)) = true.
Proof.
  unfold cursor_truthy, encode_cursor.
  now destruct (Nat.to_uint n).
Qed.

Lemma map_name_keys (xs : list string) : map name (map Build_KVKey xs) = xs.
Proof. induction xs as [|x xs IH]; cbn; [reflexivity | now rewrite IH]. Qed.

Lemma mem_list_page docs c k :
  match c with None => Some 0 | Some s => decode_cursor s end = Some k ->
  mem_list docs {| opt_cursor := c; opt_limit := 1000 |}
  = Normal {| keys := map Build_KVKey (firstn 1000 (skipn k (map fst docs)));
              cursor := if (k + 1000 <? List.length (map fst docs))%nat
                        then Some (encode_cursor (k + 1000))
                        else None |}.
Proof.
  intros H. unfold mem_list. cbn [opt_cursor opt_limit]. rewrite H. reflexivity.
Qed.

(** From offset [k], the in-memory store is read to its end in exactly
    [S n] calls when more than [n] and at most [S n] pages of 1000 keys
    remain. *)
Lemma mem_store_loop n : forall docs k c keys0 log0,
  match c with None => Some 0 | Some s => decode_cursor s end = Some k ->
  List.length docs - k <= S n * 1000 ->
  n = 0 \/ n * 1000 < List.length docs - k ->
  exists calls,
    List.length calls = S n /\
    listAllKeys_loop (S n) (logging (mem_store docs)) keys0 c (tt, log0)
    = Some (Normal (keys0 ++ skipn k (map fst docs))%list,
            (tt, (log0 ++ calls)%list)) /\
    listAllKeys_loop n (logging (mem_store docs)) keys0 c (tt, log0) = None.
Proof.
  induction n as [|n IH]; intros docs k c keys0 log0 Hc Hup Hlow.
  - eexists. split; [|split; [|reflexivity]].
    2:{ rewrite listAllKeys_loop_unfold.
        cbn [logging mem_store kv_list fst snd].
        rewrite (mem_list_page docs c k Hc). cbn [cursor keys].
        destruct (Nat.ltb_spec (k + 1000) (List.length (map fst docs))) as [Hlt|Hge].
        { rewrite length_map in Hlt. lia. }
        cbn [cursor_truthy]. rewrite map_name_keys.
        rewrite firstn_all2; [reflexivity|].
        rewrite length_skipn, length_map. lia. }
    reflexivity.
  - assert (Hlt : k + 1000 < List.length (map fst docs))
      by (rewrite length_map; lia).
    destruct (IH docs (k + 1000)
                 (Some (encode_cursor (k + 1000)))
                 (keys0 ++ firstn 1000 (skipn k (map fst docs)))%list
                 (log0 ++ [({| opt_cursor := c; opt_limit := 1000 |},
                            mem_list docs {| opt_cursor := c; opt_limit := 1000 |})])%list)
      as [calls [Hlen [Hrun Hnone]]].
    + apply decode_encode_cursor.
    + lia.
    + lia.
    + exists (({| opt_cursor := c; opt_limit := 1000 |},
               mem_list docs {| opt_cursor := c; opt_limit := 1000 |}) :: calls).
      assert (Hstep : forall fuel,
        listAllKeys_loop (S fuel) (logging (mem_store docs)) keys0 c (tt, log0)
        = listAllKeys_loop fuel (logging (mem_store docs))
            (keys0 ++ firstn 1000 (skipn k (map fst docs)))%list
            (Some (encode_cursor (k + 1000)))
            (tt, (log0 ++ [({| opt_cursor := c; opt_limit := 1000 |},
                            mem_list docs {| opt_cursor := c; opt_limit := 1000 |})])%list)).
      { intros fuel. rewrite listAllKeys_loop_unfold.
        cbn [logging mem_store kv_list fst snd].
        rewrite (mem_list_page docs c k Hc). cbn [cursor keys].
        apply Nat.ltb_lt in Hlt. rewrite Hlt, encode_cursor_truthy.
        now rewrite map_name_keys. }
      split; [cbn [List.length]; lia|split].
      * rewrite Hstep. etransitivity; [exact Hrun|].
        rewrite <- !app_assoc. do 3 f_equal.
        rewrite <- (firstn_skipn 1000 (skipn k (map fst docs))) at 2.
        rewrite skipn_skipn. now rewrite (Nat.add_comm 1000 k).
      * rewrite Hstep. exact Hnone.
Qed.

(** ** Enumeration *)

(** The loop takes a cursor that is the empty string for no cursor. *)
Example listAllKeys_empty_cursor :
  listAllKeys 2 (logging empty_cursor_store) (tt, [])
  = Some (Normal ["a"],
          (tt, [({| opt_cursor := None; opt_limit := 1000 |},
                 Normal {| keys := [ {| name := "a" |} ];
                           cursor := Some EmptyString |})])).
Proof. reflexivity. Qed.

Lemma cursor_present_truthy (c : option string) :
  c <> Some EmptyString -> cursor_present c = cursor_truthy c.
Proof.
  destruct c as [s|]; [|reflexivity]. intros H. cbn.
  destruct (String.eqb_spec s EmptyString) as [->|_]; [now contradiction H|].
  reflexivity.
Qed.

(** On a log without an empty cursor, a cursor continues the loop exactly
    when it is present. *)
Lemma chained_present : forall log cursor0,
  chained cursor_truthy cursor0 log ->
  Forall (fun c => forall r, snd c = Normal r -> cursor r <> Some EmptyString) log ->
  chained cursor_present cursor0 log.
Proof.
  induction log as [|[o [r|e]] rest IH]; intros cursor0 Hch Hall;
    [destruct Hch| |destruct Hch].
  cbn [chained] in *. destruct Hch as [Ho Hrest]. split; [exact Ho|].
  inversion Hall as [|c l Hr Hall']; subst.
  rewrite (cursor_present_truthy _ (Hr r eq_refl)).
  destruct rest as [|c rest]; [exact Hrest|].
  destruct Hrest as [Hc Hrest]. split; [exact Hc | now apply IH].
Qed.

(** Every entry of the log is a call the store has answered. *)
Lemma logging_entries {World : Type} fuel :
  forall (kv : KVNamespace World) keys0 cursor0 (w : World) log0 out w' log,
  listAllKeys_loop fuel (logging kv) keys0 cursor0 (w, log0)
  = Some (out, (w', log)) ->
  exists calls,
    log = (log0 ++ calls)%list /\
    Forall (fun c => exists w1, fst (kv_list kv (fst c) w1) = snd c) calls.
Proof.
  induction fuel as [|fuel IH]; intros kv keys0 cursor0 w log0 out w' log H;
    [discriminate|].
  rewrite listAllKeys_loop_unfold in H. cbn [logging kv_list fst snd] in H.
  destruct (kv_list kv {| opt_cursor := cursor0; opt_limit := 1000 |} w)
    as [[r|e] w1] eqn:Hcall.
  - destruct (cursor_truthy (cursor r)).
    + destruct (IH _ _ _ _ _ _ _ _ H) as [calls [-> Hall]].
      exists (({| opt_cursor := cursor0; opt_limit := 1000 |}, Normal r) :: calls).
      split; [now rewrite <- app_assoc|].
      constructor; [|exact Hall]. exists w. cbn [fst snd]. now rewrite Hcall.
    + injection H as <- <- <-.
      exists [({| opt_cursor := cursor0; opt_limit := 1000 |}, Normal r)].
      split; [reflexivity|]. constructor; [|constructor].
      exists w. cbn [fst snd]. now rewrite Hcall.
  - injection H as <- <- <-.
    exists [({| opt_cursor := cursor0; opt_limit := 1000 |}, Throw e)].
    split; [reflexivity|]. constructor; [|constructor].
    exists w. cbn [fst snd]. now rewrite Hcall.
Qed.

(** The in-memory store never hands out the empty string as a cursor. *)
Lemma mem_list_cursor docs o r :
  mem_list docs o = Normal r -> cursor r <> Some EmptyString.
Proof.
  unfold mem_list.
  destruct (match opt_cursor o with
            | Some c => decode_cursor c
            | None => Some 0
            end) as [offset|]; [|discriminate].
  intros H. injection H as <-. cbn [cursor].
  destruct (_ <? _)%nat; [|discriminate].
  intros E.
  pose proof (encode_cursor_truthy (offset + Z.to_nat (opt_limit o))) as Ht.
  injection E as E. unfold cursor_truthy in Ht.
  rewrite E in Ht. discriminate Ht.
Qed.

(** C6. Whenever the enumeration returns, its result is the concatenation,
    in call order and with nothing resorted or dropped, of the key names
    of the pages the store served; every call asked for 1000 keys, the
    first call carried no cursor and each later call the cursor of the
    page before it; and the loop went on after every page that came with
    a cursor and stopped exactly at the first page that came with none.
    A cursor is a non-empty string here: the test of the loop takes the
    empty string, like an absent cursor, for no cursor, which is the
    reading of the chain with [cursor_truthy]; on a store that never hands
    out the empty string, a cursor is none exactly when it is absent,
    which is the chain with [cursor_present].  A store of 2500 keys paged
    at 1000 yields its 2500 keys in order in exactly 3 page fetches. *)
Theorem listAllKeys_enumerates :
  (forall (World : Type) (kv : KVNamespace World) (w : World) fuel ks w',
      listAllKeys fuel kv w = Some (Normal ks, w') ->
      exists log,
        listAllKeys fuel (logging kv) (w, []) = Some (Normal ks, (w', log)) /\
        chained cursor_truthy None log /\
        ks = logged_names log /\
        listAllKeys (List.length log) kv w = Some (Normal ks, w') /\
        (Forall (fun c => forall r, snd c = Normal r ->
                                    cursor r <> Some EmptyString) log ->
         chained cursor_present None log)) /\
  (forall docs fuel,
      List.length docs = 2500 ->
      exists log,
        List.length log = 3 /\
        (3 <= fuel ->
         listAllKeys fuel (logging (mem_store docs)) (tt, [])
         = Some (Normal (map fst docs), (tt, log))) /\
        (fuel < 3 ->
         listAllKeys fuel (logging (mem_store docs)) (tt, []) = None) /\
        chained cursor_present None log).
Proof.
  split.
  - intros World kv w fuel ks w' H. unfold listAllKeys in *.
    destruct (listAllKeys_loop_logging fuel kv [] None w [] _ _ H) as [calls Hrun].
    destruct (listAllKeys_loop_logged fuel kv [] None w [] _ _ _ Hrun)
      as [calls' [Heq [Hch [Hks [_ Hmin]]]]].
    cbn [app] in Heq, Hrun. subst calls'.
    exists calls.
    split; [exact Hrun|split; [exact Hch|split; [exact Hks|split; [exact Hmin|]]]].
    now apply chained_present.
  - intros docs fuel Hlen.
    destruct (mem_store_loop 2 docs 0 None [] []) as [calls [Hc [Hrun Hnone]]];
      [reflexivity | lia | lia |].
    exists calls. split; [exact Hc|]. unfold listAllKeys. split; [|split].
    + intros Hle. apply (listAllKeys_loop_mono 3); [exact Hrun | exact Hle].
    + intros Hlt.
      destruct (listAllKeys_loop fuel (logging (mem_store docs)) [] None (tt, []))
        as [out|] eqn:E; [|reflexivity].
      apply (fun H => listAllKeys_loop_mono fuel _ _ _ _ _ 2 H) in E; [|lia].
      pose proof (eq_trans (eq_sym Hnone) E) as Habs. discriminate Habs.
    + destruct (listAllKeys_loop_logged 3 (mem_store docs) [] None tt [] _ _ _ Hrun)
        as [calls1 [Heq1 [Hch _]]].
      destruct (logging_entries 3 (mem_store docs) [] None tt [] _ _ _ Hrun)
        as [calls2 [Heq2 Hall]].
      cbn [app] in Heq1, Heq2. subst calls1 calls2.
      apply chained_present; [exact Hch|].
      apply Forall_forall. intros c Hin r Hr.
      destruct (proj1 (Forall_forall _ _) Hall c Hin) as [w1 Hcall].
      exact (mem_list_cursor docs (fst c) r (eq_trans Hcall Hr)).
Qed.

(** A store of 2500 documents. *)
Lemma listAllKeys_enumerates_witness :
  exists log,
    List.length log = 3 /\
    listAllKeys 3
      (logging (mem_store (map (fun i => (encode_cursor i, "{}")) (seq 0 2500))))
      (tt, [])
    = Some (Normal (map fst (map (fun i => (encode_cursor i, "{}")) (seq 0 2500))),
            (tt, log)).
Proof.
  destruct (proj2 listAllKeys_enumerates
              (map (fun i => (encode_cursor i, "{}")) (seq 0 2500)) 3)
    as [log [Hlen [Hrun _]]].
  - now rewrite length_map, length_seq.
  - exists log. split; [exact Hlen | apply Hrun; lia].
Defined.

(** C8. The loop ends for every store whose listing eventually comes
    without a cursor: if the call number [n] of the sequence of listing
    calls returns no cursor, [listAllKeys] returns after at most [n + 1]
    calls, whatever fuel it is given beyond that.  Nothing else bounds
    it: for every [n] a store makes it call [n + 1] times, and against a
    store that hands out a cursor with every page no amount of fuel
    suffices. *)
Theorem listAllKeys_terminates :
  (forall (World : Type) (kv : KVNamespace World) (w : World) n r w',
      nth_list_call kv n None w = (Normal r, w') ->
      cursor r = None ->
      exists fuel ks w'',
        fuel <= S n /\
        forall fuel', fuel <= fuel' ->
                      listAllKeys fuel' kv w = Some (Normal ks, w'')) /\
  (forall n,
      listAllKeys n countdown_store n = None /\
      listAllKeys (S n) countdown_store n
      = Some (Normal (repeat "k" (S n)), 0)) /\
  (forall fuel, listAllKeys fuel endless_store tt = None).
Proof.
  split; [|split].
  - intros World kv w n r w' Hn Hc.
    destruct (listAllKeys_loop_stops n kv [] None w r w' Hn)
      as [fuel [ks [w'' [Hle Hrun]]]]; [now rewrite Hc|].
    exists fuel, ks, w''. split; [exact Hle|].
    intros fuel' Hge. exact (listAllKeys_loop_mono _ _ _ _ _ _ _ Hrun Hge).
  - intros n. destruct (countdown_store_loop n [] None) as [Hrun Hnone].
    split; [exact Hnone | exact Hrun].
  - intros fuel. apply endless_store_loop.
Qed.

Lemma listAllKeys_terminates_witness :
  exists fuel ks w'',
    fuel <= 3 /\
    forall fuel', fuel <= fuel' ->
                  listAllKeys fuel' countdown_store 2 = Some (Normal ks, w'').
Proof.
  exact (proj1 listAllKeys_terminates nat countdown_store 2 2
           {| keys := [ {| name := "k" |} ]; cursor := None |} 0
           eq_refl eq_refl).
Defined.

(** ** The handler on the [/list-keys] route *)

Section ListKeysFacts.

Context {World : Type}.
Implicit Types (env : Env World) (w : World) (request : Request).




Lemma stringify_fault_details (m : JsValue) :
  stringify_fault (JsObject [("error", JsString "Failed to list keys");
                             ("details", m)])
  = stringify_fault m.
Proof.
  change (stringify_fault (JsObject [("error", JsString "Failed to list keys");
                                     ("details", m)]))
    with (match stringify_fault m with Some e => Some e | None => None end).
  now destruct (stringify_fault m).
Qed.



(** A fault whose message is a BigInt makes the handler reject. *)
Example fetch_list_keys_bigint :
  fetch 1 {| url_pathname := "/list-keys"; header_If_None_Match := None |}
        {| APP_JSON := failing_store (JsObject [("message", JsBigInt 10)]) |} tt
  = Some (Throw (TypeError "Do not know how to serialize a BigInt"), tt).
Proof. reflexivity. Qed.

(** A fault whose message is [undefined] leaves [details] out. *)
Example fetch_list_keys_undefined :
  fetch 1 {| url_pathname := "/list-keys"; header_If_None_Match := None |}
        {| APP_JSON := failing_store (JsObject [("message", JsUndefined)]) |} tt
  = Some (Normal {| status := 500;
                    headers := [("Content-Type", "application/json")];
                    body := Some ("{" ++ quoted "error" ++ ":"
                                      ++ quoted "Failed to list keys" ++ "}") |}, tt).
Proof. reflexivity. Qed.

(** The header [Access-Control-Allow-Origin] of a response is decided by
    its status: the 200 and 304 responses carry it with the value [*], the
    404 and 500 responses do not carry it. *)
Lemma fetch_cors_by_status fuel request env w r w' :
  fetch fuel request env w = Some (Normal r, w') ->
  headers_get "Access-Control-Allow-Origin" (headers r)
  = if ((status r =? 404) || (status r =? 500))%Z then None else Some "*".
Proof.
  intros H.
  destruct (url_pathname request =? "/list-keys") eqn:Hp.
  - rewrite (fetch_list_keys_route _ _ _ _ Hp) in H.
    destruct (listAllKeys fuel (APP_JSON env) w) as [[[ks|e] w1]|];
      [| |discriminate].
    + injection H as <- _; reflexivity.
    + destruct (errorMessage_of e) as [m|e']; [|discriminate].
      destruct (stringify_fault _); [discriminate|].
      injection H as <- _; reflexivity.
  - rewrite (fetch_document_route _ _ _ _ Hp) in H. cbv zeta in H.
    destruct (kv_getWithMetadata (APP_JSON env)
                (derive_key (url_pathname request)) w) as [[[o|]|e] w1];
      [| |discriminate].
    + destruct (value o) as [s|];
        [destruct (s =? EmptyString)|]; try (injection H as <- _; reflexivity).
      destruct (match option_map _ (header_If_None_Match request) with
                | Some x => _ | None => false end);
        injection H as <- _; reflexivity.
    + injection H as <- _; reflexivity.
Qed.

End ListKeysFacts.

(** ** Cross-origin access *)

(** C1 fails on the code at both error responses: the 404 response for a
    key that is not stored and the 500 response for a failed enumeration
    carry [Content-Type] alone, and no [Access-Control-Allow-Origin]. *)
Theorem error_responses_lack_cors :
  (exists r,
      fetch 0 {| url_pathname := "/missing"; header_If_None_Match := None |}
            {| APP_JSON := mem_store [] |} tt = Some (Normal r, tt) /\
      status r = 404%Z /\
      headers r = [("Content-Type", "application/json")] /\
      headers_get "Access-Control-Allow-Origin" (headers r) = None) /\
  (exists r,
      fetch 1 {| url_pathname := "/list-keys"; header_If_None_Match := None |}
            {| APP_JSON := failing_store
                             (JsObject [("message", JsString "KV unavailable")]) |}
            tt = Some (Normal r, tt) /\
      status r = 500%Z /\
      headers r = [("Content-Type", "application/json")] /\
      headers_get "Access-Control-Allow-Origin" (headers r) = None).
Proof.
  split; eexists; (split; [reflexivity|]); repeat split.
Qed.

(** ** The theorems at concrete requests *)

Lemma fetch_not_found_witness :
  exists r,
    fetch 0 {| url_pathname := "/missing"; header_If_None_Match := None |}
          {| APP_JSON := mem_store [("a.json", "{}")] |} tt = Some (Normal r, tt) /\
    status r = 404%Z /\
    body r = Some ("{" ++ quoted "error" ++ ":"
                       ++ quoted "JSON not found for key: missing.json" ++ "}").
Proof.
  destruct (fetch_not_found 0
              {| url_pathname := "/missing"; header_If_None_Match := None |}
              {| APP_JSON := mem_store [("a.json", "{}")] |} tt
              (Some {| value := None; metadata := JsNull |}) tt)
    as [r [Hf [Hs [_ [_ Hb]]]]].
  - discriminate.
  - reflexivity.
  - right. eexists. split; [reflexivity | left; reflexivity].
  - exists r. split; [exact Hf | split; [exact Hs | apply Hb; reflexivity]].
Defined.

Lemma fetch_unconditional_witness :
  fetch 0 {| url_pathname := "/a"; header_If_None_Match := None |}
        {| APP_JSON := mem_store [("a.json", "{}")] |} tt
  = Some (Normal {| status := 200;
                    headers := [("Content-Type", "application/json");
                                ("Access-Control-Allow-Origin", "*");
                                ("Cache-Control", "public, max-age=300");
                                ("ETag", quoted (sha1 "{}"))];
                    body := Some "{}" |}, tt).
Proof.
  apply (proj1 (fetch_unconditional 0
                  {| url_pathname := "/a"; header_If_None_Match := None |}
                  {| APP_JSON := mem_store [("a.json", "{}")] |} tt)
           {| value := Some "{}"; metadata := JsNull |} "{}" tt).
  - discriminate.
  - reflexivity.
  - reflexivity.
  - reflexivity.
  - discriminate.
Defined.

Lemma fetch_round_trip_witness :
  fetch 0 {| url_pathname := "/a";
             header_If_None_Match := Some (quoted (sha1 "{}")) |}
        {| APP_JSON := mem_store [("a.json", "{}")] |} tt
  = Some (Normal {| status := 304;
                    headers := [("ETag", quoted (sha1 "{}"));
                                ("Access-Control-Allow-Origin", "*");
                                ("Access-Control-Expose-Headers", "ETag")];
                    body := None |}, tt).
Proof.
  apply (fetch_round_trip 0 "/a" {| APP_JSON := mem_store [("a.json", "{}")] |} tt
           {| status := 200;
              headers := [("Content-Type", "application/json");
                          ("Access-Control-Allow-Origin", "*");
                          ("Cache-Control", "public, max-age=300");
                          ("ETag", quoted (sha1 "{}"))];
              body := Some "{}" |}
           tt (quoted (sha1 "{}")) {| value := Some "{}"; metadata := JsNull |} tt).
  - reflexivity.
  - reflexivity.
  - reflexivity.
  - reflexivity.
Defined.

(** ** The digest on known inputs *)

Example sha1_empty : sha1 EmptyString = "da39a3ee5e6b4b0d3255bfef95601890afd80709".
Proof. vm_compute. reflexivity. Qed.

Example sha1_abc : sha1 "abc" = "a9993e364706816aba3e25717850c26c9cd0d89d".
Proof. vm_compute. reflexivity. Qed.

Example sha1_two_blocks :
  sha1 "abcdbcdecdefdefgefghfghighijhijkijkljklmklmnlmnomnopnopq"
  = "84983e441c3bd26ebaae4aa1f95129e5e54670f1".
Proof. vm_compute. reflexivity. Qed.

(** * Further properties of the worker *)

(** ** The storage key *)

Lemma endsWith_append_other (s : string) :
  JsString.endsWith s ".json" = false ->
  forall t, s <> t ++ ".json".
Proof.
  intros H t E. rewrite E, endsWith_append in H. discriminate.
Qed.

(** X1. Two request paths derive the same storage key exactly when their
    slash-stripped forms are equal, or one of them is the other followed
    by [.json], the other not ending in [.json] itself. *)
Theorem derive_key_collision_iff (p1 p2 : string) :
  derive_key p1 = derive_key p2 <->
  strip_leading_slashes p1 = strip_leading_slashes p2 \/
  (strip_leading_slashes p1 = strip_leading_slashes p2 ++ ".json" /\
   JsString.endsWith (strip_leading_slashes p2) ".json" = false) \/
  (strip_leading_slashes p2 = strip_leading_slashes p1 ++ ".json" /\
   JsString.endsWith (strip_leading_slashes p1) ".json" = false).
Proof.
  rewrite !derive_key_unfold.
  destruct (JsString.endsWith (strip_leading_slashes p1) ".json") eqn:E1,
           (JsString.endsWith (strip_leading_slashes p2) ".json") eqn:E2.
  - split; [now left|]. intros [H|[[_ H]|[_ H]]]; [exact H|discriminate..].
  - split; [intros H; right; left; now split|].
    intros [H|[[H _]|[_ H]]]; [|exact H|discriminate].
    rewrite H in E1. congruence.
  - split; [intros H; right; right; now split|].
    intros [H|[[_ H]|[H _]]]; [|discriminate|now symmetry].
    rewrite H in E1. congruence.
  - split.
    + intros H. left. now apply append_inj_l in H.
    + intros [H|[[H _]|[H _]]]; [now rewrite H| |].
      * now apply endsWith_append_other in H.
      * now apply endsWith_append_other in H.
Qed.

Lemma strip_leading_slashes_slashes (n : nat) (p : string) :
  strip_leading_slashes (slashes n ++ p) = strip_leading_slashes p.
Proof. induction n as [|n IH]; [reflexivity | exact IH]. Qed.

Lemma has_suffix_length (s suf : string) :
  has_suffix s suf -> String.length suf <= String.length s.
Proof. intros [pre ->]. rewrite length_append. lia. Qed.

(** X2. Whatever the path, the derived key is never empty: it has at
    least the five characters of [.json], and it does not start with a
    slash.  Slashes put before a path do not change its key, and a path
    made of slashes only, the empty path included, has the key [.json]. *)
Theorem derive_key_shape (p : string) (n : nat) :
  5 <= String.length (derive_key p) /\
  derive_key p <> EmptyString /\
  JsString.run_length "/" (derive_key p) = 0 /\
  derive_key (slashes n ++ p) = derive_key p /\
  derive_key (slashes n) = ".json".
Proof.
  assert (H5 : 5 <= String.length (derive_key p)).
  { apply (has_suffix_length _ ".json"), endsWith_has_suffix, derive_key_ends_json. }
  split; [exact H5|split; [|split; [|split]]].
  - intros E. rewrite E in H5. cbn in H5. lia.
  - apply derive_key_no_leading_slash.
  - now rewrite !derive_key_unfold, strip_leading_slashes_slashes.
  - rewrite <- (append_nil_r (slashes n)).
    now rewrite derive_key_unfold, strip_leading_slashes_slashes.
Qed.

(** ** The hexadecimal text of the digest *)

Lemma concat_empty_cons (x : string) (xs : list string) :
  String.concat EmptyString (x :: xs) = x ++ String.concat EmptyString xs.
Proof.
  destruct xs as [|y ys]; cbn [String.concat].
  - now rewrite append_nil_r.
  - reflexivity.
Qed.

Lemma byte_hex_table :
  forallb (fun n =>
             String.eqb (Sha1.padStart 2 "0" (Sha1.toString16 (Z.of_nat n)))
                        (String (Sha1.hex_digit (Z.of_nat n / 16))
                           (String (Sha1.hex_digit (Z.of_nat n mod 16)) EmptyString)))
          (seq 0 256) = true.
Proof. vm_compute. reflexivity. Qed.

(** One byte is written as its two hexadecimal digits, high digit first. *)
Lemma byte_hex (b : Z) :
  (0 <= b < 256)%Z ->
  Sha1.padStart 2 "0" (Sha1.toString16 b)
  = String (Sha1.hex_digit (b / 16))
      (String (Sha1.hex_digit (b mod 16)) EmptyString).
Proof.
  intros Hb.
  pose proof (proj1 (forallb_forall _ _) byte_hex_table (Z.to_nat b)) as H.
  cbv beta in H. rewrite Z2Nat.id in H by lia.
  apply String.eqb_eq, H, in_seq. lia.
Qed.

Lemma hex_cons (b : Z) (bytes : list Z) :
  (0 <= b < 256)%Z ->
  Sha1.hex (b :: bytes)
  = String (Sha1.hex_digit (b / 16))
      (String (Sha1.hex_digit (b mod 16)) (Sha1.hex bytes)).
Proof.
  intros Hb. unfold Sha1.hex. cbn [map].
  now rewrite concat_empty_cons, (byte_hex b Hb).
Qed.

Lemma hex_digit_table :
  forallb (fun i =>
             is_lower_hex (Sha1.hex_digit (Z.of_nat i)) &&
             forallb (fun j =>
                        implb (Ascii.eqb (Sha1.hex_digit (Z.of_nat i))
                                         (Sha1.hex_digit (Z.of_nat j)))
                              (i =? j)%nat)
                     (seq 0 16))
          (seq 0 16) = true.
Proof. vm_compute. reflexivity. Qed.

Lemma hex_digit_lower (d : Z) :
  (0 <= d < 16)%Z -> is_lower_hex (Sha1.hex_digit d) = true.
Proof.
  intros Hd.
  pose proof (proj1 (forallb_forall _ _) hex_digit_table (Z.to_nat d)) as H.
  cbv beta in H. rewrite Z2Nat.id in H by lia.
  assert (Hin : In (Z.to_nat d) (seq 0 16)) by (apply in_seq; lia).
  apply H in Hin. now apply andb_true_iff in Hin as [Hin _].
Qed.

Lemma hex_digit_inj (d1 d2 : Z) :
  (0 <= d1 < 16)%Z -> (0 <= d2 < 16)%Z ->
  Sha1.hex_digit d1 = Sha1.hex_digit d2 -> d1 = d2.
Proof.
  intros H1 H2 E.
  pose proof (proj1 (forallb_forall _ _) hex_digit_table (Z.to_nat d1)) as H.
  cbv beta in H. rewrite Z2Nat.id in H by lia.
  assert (Hin : In (Z.to_nat d1) (seq 0 16)) by (apply in_seq; lia).
  apply H in Hin. apply andb_true_iff in Hin as [_ Hin].
  pose proof (proj1 (forallb_forall _ _) Hin (Z.to_nat d2)) as H'.
  cbv beta in H'. rewrite Z2Nat.id in H' by lia.
  assert (Hin2 : In (Z.to_nat d2) (seq 0 16)) by (apply in_seq; lia).
  apply H' in Hin2. rewrite E, Ascii.eqb_refl in Hin2. cbn in Hin2.
  apply Nat.eqb_eq in Hin2. lia.
Qed.

Lemma hex_shape (bytes : list Z) :
  Forall (fun b => 0 <= b < 256)%Z bytes ->
  String.length (Sha1.hex bytes) = 2 * List.length bytes /\
  all_lower_hex (Sha1.hex bytes) = true.
Proof.
  induction 1 as [|b bytes Hb _ [IHlen IHhex]]; [split; reflexivity|].
  rewrite (hex_cons b bytes Hb). cbn [String.length all_lower_hex List.length].
  rewrite IHlen, IHhex, !hex_digit_lower.
  - split; [lia | reflexivity].
  - apply Z.mod_pos_bound. lia.
  - split; [apply Z.div_pos; lia | apply Z.div_lt_upper_bound; lia].
Qed.

(** X3. The hexadecimal text of a byte array has exactly two characters
    per byte, each one of the sixteen digits 0 to 9 and a to f in lower
    case: a byte below 16 keeps its leading zero. *)
Theorem hex_two_digits_per_byte (bytes : list Z) :
  Forall (fun b => 0 <= b < 256)%Z bytes ->
  String.length (Sha1.hex bytes) = 2 * List.length bytes /\
  all_lower_hex (Sha1.hex bytes) = true.
Proof. exact (hex_shape bytes). Qed.

Lemma hex_two_digits_per_byte_witness :
  String.length (Sha1.hex [0; 10; 255]%Z) = 6 /\
  all_lower_hex (Sha1.hex [0; 10; 255]%Z) = true.
Proof.
  apply (hex_two_digits_per_byte [0; 10; 255]%Z).
  repeat constructor; lia.
Defined.

(** X4. The hexadecimal text determines the bytes: two byte arrays with
    the same text are the same array, so two distinct digests never give
    the same validator. *)
Theorem hex_injective (bytes1 bytes2 : list Z) :
  Forall (fun b => 0 <= b < 256)%Z bytes1 ->
  Forall (fun b => 0 <= b < 256)%Z bytes2 ->
  Sha1.hex bytes1 = Sha1.hex bytes2 ->
  bytes1 = bytes2.
Proof.
  intros H1; revert bytes2.
  induction H1 as [|b1 bytes1 Hb1 _ IH]; intros bytes2 H2 E.
  - destruct H2 as [|b2 bytes2 Hb2 _]; [reflexivity|].
    rewrite (hex_cons b2 bytes2 Hb2) in E. discriminate E.
  - destruct H2 as [|b2 bytes2 Hb2 H2].
    + rewrite (hex_cons b1 bytes1 Hb1) in E. discriminate E.
    + rewrite (hex_cons b1 bytes1 Hb1), (hex_cons b2 bytes2 Hb2) in E.
      injection E as Ehi Elo Erest.
      apply hex_digit_inj in Ehi;
        [|split; [apply Z.div_pos; lia | apply Z.div_lt_upper_bound; lia]..].
      apply hex_digit_inj in Elo; [|apply Z.mod_pos_bound; lia..].
      f_equal; [|now apply IH].
      rewrite (Z.div_mod b1 16), (Z.div_mod b2 16) by lia. now rewrite Ehi, Elo.
Qed.

Lemma hex_injective_witness : [171; 16]%Z = [171; 16]%Z.
Proof.
  apply (hex_injective [171; 16]%Z [171; 16]%Z);
    [repeat constructor; lia | repeat constructor; lia | reflexivity].
Defined.

Lemma be_bytes_range (n : nat) (x : Z) :
  Forall (fun b => 0 <= b < 256)%Z (Sha1.be_bytes n x).
Proof.
  unfold Sha1.be_bytes. apply Forall_map, Forall_forall. intros i _.
  change 255%Z with (Z.ones 8). rewrite Z.land_ones by lia.
  apply Z.mod_pos_bound. reflexivity.
Qed.

Lemma digest_bytes (msg : list Z) :
  List.length (Sha1.digest msg) = 20 /\
  Forall (fun b => 0 <= b < 256)%Z (Sha1.digest msg).
Proof.
  unfold Sha1.digest.
  set (h := Sha1.blocks _ _ _). split.
  - reflexivity.
  - apply Forall_flat_map.
    repeat (apply Forall_cons; [apply be_bytes_range|]). apply Forall_nil.
Qed.

(** X5. The fingerprint of [sha1] is, for every text, a string of exactly
    40 lower-case hexadecimal digits. *)
Theorem sha1_forty_hex_digits (data : string) :
  String.length (sha1 data) = 40 /\ all_lower_hex (sha1 data) = true.
Proof.
  unfold sha1.
  destruct (digest_bytes (Sha1.encode data)) as [Hlen Hrange].
  destruct (hex_shape _ Hrange) as [Hl Hh].
  rewrite Hl, Hlen. split; [reflexivity | exact Hh].
Qed.

(** ** Validators on the document route *)

Lemma all_lower_hex_quote_free (s : string) :
  all_lower_hex s = true -> quote_free s = true.
Proof.
  induction s as [|a s IH]; [reflexivity|].
  cbn [all_lower_hex quote_free]. intros H.
  apply andb_true_iff in H as [Ha Hs]. rewrite (IH Hs), andb_true_r.
  destruct (Ascii.eqb_spec a JsString.dquote) as [->|_]; [discriminate Ha|reflexivity].
Qed.

Lemma sha1_quote_free (data : string) : quote_free (sha1 data) = true.
Proof. apply hex_quote_free. Qed.

Lemma quotes_to_end_quotes (m : nat) : JsString.quotes_to_end (quotes (S m)) = true.
Proof.
  induction m as [|m IH]; [reflexivity|].
  change (quotes (S (S m))) with (String JsString.dquote (quotes (S m))).
  cbn [JsString.quotes_to_end]. cbn [quotes] in *. now rewrite IH.
Qed.

Lemma replace_trailing_quotes_run (s : string) (m : nat) :
  quote_free s = true -> JsString.replace_trailing_quotes (s ++ quotes m) = s.
Proof.
  induction s as [|a s IH]; intros H.
  - destruct m as [|m]; [reflexivity|]. cbn [append].
    change (quotes (S m)) with (String JsString.dquote (quotes m)).
    cbn [JsString.replace_trailing_quotes].
    change (String JsString.dquote (quotes m)) with (quotes (S m)).
    now rewrite quotes_to_end_quotes.
  - cbn [quote_free] in H. apply andb_true_iff in H as [Ha Hs].
    apply negb_true_iff in Ha. cbn [append JsString.replace_trailing_quotes].
    now rewrite (quotes_to_end_other _ _ Ha), (IH Hs).
Qed.

Lemma run_length_quotes (n : nat) (t : string) :
  JsString.run_length JsString.dquote (quotes n ++ t)
  = n + JsString.run_length JsString.dquote t.
Proof.
  induction n as [|n IH]; [reflexivity|].
  cbn [quotes append JsString.run_length]. now rewrite Ascii.eqb_refl, IH.
Qed.

Lemma slice_quotes (n k : nat) (t : string) :
  JsString.slice (n + k) (quotes n ++ t) = JsString.slice k t.
Proof. induction n as [|n IH]; [reflexivity | exact IH]. Qed.

Lemma slice_run_quote_free (s : string) (m : nat) :
  quote_free s = true ->
  JsString.slice (JsString.run_length JsString.dquote (s ++ quotes m)) (s ++ quotes m)
  = s ++ quotes (if String.eqb s EmptyString then 0 else m).
Proof.
  destruct s as [|a s]; intros H.
  - cbn [append String.eqb]. rewrite <- (append_nil_r (quotes m)) at 1 2.
    rewrite run_length_quotes. cbn [JsString.run_length].
    now rewrite slice_quotes.
  - cbn [quote_free] in H. apply andb_true_iff in H as [Ha _].
    apply negb_true_iff in Ha. cbn [append JsString.run_length String.eqb].
    now rewrite Ha.
Qed.

(** Any number of quotes before and after a quote-free token are
    stripped. *)
Lemma replace_surrounding_quotes_runs (n m : nat) (s : string) :
  quote_free s = true ->
  JsString.replace_surrounding_quotes (quotes n ++ s ++ quotes m) = s.
Proof.
  intros H. unfold JsString.replace_surrounding_quotes.
  rewrite run_length_quotes, slice_quotes, (slice_run_quote_free s m H).
  now apply replace_trailing_quotes_run.
Qed.

Lemma replace_weak_prefix_hex (s t : string) :
  all_lower_hex s = true -> s <> EmptyString ->
  JsString.replace_weak_prefix (s ++ t) = s ++ t.
Proof.
  destruct s as [|a s]; [congruence|]. intros H _.
  cbn [all_lower_hex] in H. apply andb_true_iff in H as [Ha _].
  unfold JsString.replace_weak_prefix. cbn [append prefix].
  destruct (ascii_dec "W" a) as [<-|_]; [discriminate Ha|reflexivity].
Qed.

Lemma sha1_shape (data : string) :
  String.length (sha1 data) = 40 /\ all_lower_hex (sha1 data) = true.
Proof.
  unfold sha1.
  destruct (digest_bytes (Sha1.encode data)) as [Hlen Hrange].
  destruct (hex_shape _ Hrange) as [Hl Hh].
  rewrite Hl, Hlen. split; [reflexivity | exact Hh].
Qed.

Lemma sha1_nonempty (data : string) : sha1 data <> EmptyString.
Proof.
  intros E. pose proof (proj1 (sha1_shape data)) as H.
  rewrite E in H. discriminate H.
Qed.

Section ValidatorFacts.

Context {World : Type}.
Implicit Types (env : Env World) (w : World) (request : Request).

(** The handler on a stored document, with the comparison of line 55
    read as a comparison with the bare digest. *)
Lemma fetch_stored fuel request env w o jsonString w' :
  url_pathname request <> "/list-keys" ->
  kv_getWithMetadata (APP_JSON env) (derive_key (url_pathname request)) w
  = (Normal (Some o), w') ->
  value o = Some jsonString ->
  jsonString <> EmptyString ->
  fetch fuel request env w
  = Some (Normal (if match header_If_None_Match request with
                     | Some h => normalize_validator h =? sha1 jsonString
                     | None => false
                     end
                  then not_modified (quoted (sha1 jsonString))
                  else full_document (quoted (sha1 jsonString)) jsonString), w').
Proof.
  intros Hp Hget Hv Hne.
  rewrite (fetch_document _ _ _ _ _ _ _ Hp Hget Hv Hne).
  cbv zeta. rewrite normalizedEtag_sha1.
  destruct (header_If_None_Match request) as [h|]; cbn [option_map];
    [|reflexivity].
  unfold normalize_validator.
  now destruct (_ =? sha1 jsonString).
Qed.

(** X6. On a stored, non-empty document every answer, whatever the
    [If-None-Match] header and whether it is the 304 or the 200 response,
    carries the same [ETag]: the digest of the document between two
    quotes, 42 characters in all, together with
    [Access-Control-Allow-Origin: *]. *)
Theorem fetch_etag_invariant fuel request env w o jsonString w' :
  url_pathname request <> "/list-keys" ->
  kv_getWithMetadata (APP_JSON env) (derive_key (url_pathname request)) w
  = (Normal (Some o), w') ->
  value o = Some jsonString ->
  jsonString <> EmptyString ->
  exists r,
    fetch fuel request env w = Some (Normal r, w') /\
    (status r = 200%Z \/ status r = 304%Z) /\
    headers_get "ETag" (headers r) = Some (quoted (sha1 jsonString)) /\
    String.length (quoted (sha1 jsonString)) = 42 /\
    headers_get "Access-Control-Allow-Origin" (headers r) = Some "*".
Proof.
  intros Hp Hget Hv Hne.
  rewrite (fetch_stored _ _ _ _ _ _ _ Hp Hget Hv Hne).
  assert (Hlen : String.length (quoted (sha1 jsonString)) = 42).
  { unfold quoted. cbn [String.length]. rewrite length_append.
    rewrite (proj1 (sha1_shape jsonString)). reflexivity. }
  destruct (match header_If_None_Match request with
            | Some h => normalize_validator h =? sha1 jsonString
            | None => false
            end);
    eexists; (split; [reflexivity|]); cbn; auto.
Qed.

(** X7. On a stored, non-empty document, a request with an [If-None-Match]
    header is answered with the 304 response exactly when the header,
    its weak prefix and its surrounding quotes removed, is the bare
    hexadecimal digest of the document; any other header gets the full
    200 response with the document as its body. *)
Theorem fetch_conditional_response fuel request env w o jsonString w' h :
  url_pathname request <> "/list-keys" ->
  kv_getWithMetadata (APP_JSON env) (derive_key (url_pathname request)) w
  = (Normal (Some o), w') ->
  value o = Some jsonString ->
  jsonString <> EmptyString ->
  header_If_None_Match request = Some h ->
  (normalize_validator h = sha1 jsonString ->
   fetch fuel request env w
   = Some (Normal (not_modified (quoted (sha1 jsonString))), w')) /\
  (normalize_validator h <> sha1 jsonString ->
   fetch fuel request env w
   = Some (Normal (full_document (quoted (sha1 jsonString)) jsonString), w')).
Proof.
  intros Hp Hget Hv Hne Hh.
  rewrite (fetch_stored _ _ _ _ _ _ _ Hp Hget Hv Hne), Hh.
  split; intros E.
  - now rewrite E, String.eqb_refl.
  - apply String.eqb_neq in E. now rewrite E.
Qed.

(** X8. The validator is accepted in every quoting: with any number of
    double quotes before and after the digest, none included, and with or
    without the weak prefix [W/] in front, the answer is the 304
    response. *)
Theorem fetch_validator_quoting fuel request env w o jsonString w'
    (weak : bool) (n m : nat) :
  url_pathname request <> "/list-keys" ->
  kv_getWithMetadata (APP_JSON env) (derive_key (url_pathname request)) w
  = (Normal (Some o), w') ->
  value o = Some jsonString ->
  jsonString <> EmptyString ->
  header_If_None_Match request
  = Some ((if weak then "W/" else EmptyString)
          ++ quotes n ++ sha1 jsonString ++ quotes m) ->
  fetch fuel request env w
  = Some (Normal (not_modified (quoted (sha1 jsonString))), w').
Proof.
  intros Hp Hget Hv Hne Hh.
  rewrite (fetch_stored _ _ _ _ _ _ _ Hp Hget Hv Hne), Hh.
  assert (E : normalize_validator
                ((if weak then "W/" else EmptyString)
                 ++ quotes n ++ sha1 jsonString ++ quotes m)
              = sha1 jsonString).
  { unfold normalize_validator.
    assert (Hw : JsString.replace_weak_prefix
                   ((if weak then "W/" else EmptyString)
                    ++ quotes n ++ sha1 jsonString ++ quotes m)
                 = quotes n ++ sha1 jsonString ++ quotes m).
    { destruct weak.
      - apply replace_weak_prefix_weak.
      - cbn [append]. destruct n as [|n]; [|reflexivity].
        cbn [quotes append].
        apply replace_weak_prefix_hex;
          [apply sha1_shape | apply sha1_nonempty]. }
    rewrite Hw. apply replace_surrounding_quotes_runs, sha1_quote_free. }
  now rewrite E, String.eqb_refl.
Qed.

(** X9. A header whose normalised value is not a string of 40 lower-case
    hexadecimal digits never matches: the wildcard [*], a list of
    validators separated by commas, or a digest in upper case are all
    answered with the full 200 response. *)
Theorem fetch_validator_not_a_digest fuel request env w o jsonString w' h :
  url_pathname request <> "/list-keys" ->
  kv_getWithMetadata (APP_JSON env) (derive_key (url_pathname request)) w
  = (Normal (Some o), w') ->
  value o = Some jsonString ->
  jsonString <> EmptyString ->
  header_If_None_Match request = Some h ->
  String.length (normalize_validator h) <> 40 \/
  all_lower_hex (normalize_validator h) = false ->
  fetch fuel request env w
  = Some (Normal (full_document (quoted (sha1 jsonString)) jsonString), w').
Proof.
  intros Hp Hget Hv Hne Hh Hbad.
  rewrite (fetch_stored _ _ _ _ _ _ _ Hp Hget Hv Hne), Hh.
  destruct (String.eqb_spec (normalize_validator h) (sha1 jsonString)) as [E|_];
    [|reflexivity].
  destruct (sha1_shape jsonString) as [Hl Hx]. rewrite <- E in Hl, Hx.
  destruct Hbad as [Hbad|Hbad]; [contradiction | congruence].
Qed.

End ValidatorFacts.

Lemma fetch_etag_invariant_witness :
  exists r,
    fetch 0 {| url_pathname := "/a"; header_If_None_Match := Some "anything" |}
          {| APP_JSON := mem_store [("a.json", "{}")] |} tt = Some (Normal r, tt) /\
    (status r = 200%Z \/ status r = 304%Z) /\
    headers_get "ETag" (headers r) = Some (quoted (sha1 "{}")) /\
    String.length (quoted (sha1 "{}")) = 42 /\
    headers_get "Access-Control-Allow-Origin" (headers r) = Some "*".
Proof.
  apply (fetch_etag_invariant 0
           {| url_pathname := "/a"; header_If_None_Match := Some "anything" |}
           {| APP_JSON := mem_store [("a.json", "{}")] |} tt
           {| value := Some "{}"; metadata := JsNull |} "{}" tt);
    [discriminate | reflexivity | reflexivity | discriminate].
Defined.

Lemma fetch_conditional_response_witness :
  fetch 0 {| url_pathname := "/a";
             header_If_None_Match := Some (quoted (sha1 "{}")) |}
        {| APP_JSON := mem_store [("a.json", "{}")] |} tt
  = Some (Normal (not_modified (quoted (sha1 "{}"))), tt).
Proof.
  apply (proj1 (fetch_conditional_response 0
                  {| url_pathname := "/a";
                     header_If_None_Match := Some (quoted (sha1 "{}")) |}
                  {| APP_JSON := mem_store [("a.json", "{}")] |} tt
                  {| value := Some "{}"; metadata := JsNull |} "{}" tt
                  (quoted (sha1 "{}"))
                  ltac:(discriminate) eq_refl eq_refl ltac:(discriminate) eq_refl)).
  unfold normalize_validator. rewrite replace_weak_prefix_quoted.
  apply normalizedEtag_sha1.
Defined.

Lemma fetch_validator_quoting_witness :
  fetch 0 {| url_pathname := "/a";
             header_If_None_Match :=
               Some ("W/" ++ quotes 2 ++ sha1 "{}" ++ quotes 0) |}
        {| APP_JSON := mem_store [("a.json", "{}")] |} tt
  = Some (Normal (not_modified (quoted (sha1 "{}"))), tt).
Proof.
  apply (fetch_validator_quoting 0
           {| url_pathname := "/a";
              header_If_None_Match :=
                Some ("W/" ++ quotes 2 ++ sha1 "{}" ++ quotes 0) |}
           {| APP_JSON := mem_store [("a.json", "{}")] |} tt
           {| value := Some "{}"; metadata := JsNull |} "{}" tt true 2 0);
    [discriminate | reflexivity | reflexivity | discriminate | reflexivity].
Defined.

Lemma fetch_validator_not_a_digest_witness :
  fetch 0 {| url_pathname := "/a"; header_If_None_Match := Some "*" |}
        {| APP_JSON := mem_store [("a.json", "{}")] |} tt
  = Some (Normal (full_document (quoted (sha1 "{}")) "{}"), tt).
Proof.
  apply (fetch_validator_not_a_digest 0
           {| url_pathname := "/a"; header_If_None_Match := Some "*" |}
           {| APP_JSON := mem_store [("a.json", "{}")] |} tt
           {| value := Some "{}"; metadata := JsNull |} "{}" tt "*");
    [discriminate | reflexivity | reflexivity | discriminate | reflexivity |].
  left. discriminate.
Defined.

(** ** Faults and the shape of a response *)

Section OutcomeFacts.

Context {World : Type}.
Implicit Types (env : Env World) (w : World) (request : Request).

(** X10. The handler rejects in two cases and no other.  On the document
    route it rejects exactly when the store lookup of the derived key
    rejects, and then with the very fault of the store.  On the
    [/list-keys] route it rejects exactly when the enumeration has failed
    and the catch clause itself throws while it builds the answer: when
    testing or reading the [message] of the fault throws, or when
    [JSON.stringify] throws on that message, as it does on a BigInt.  An
    enumeration that returns never makes the handler reject. *)
Theorem fetch_throws_iff fuel request env w e w' :
  fetch fuel request env w = Some (Throw e, w') <->
  (url_pathname request <> "/list-keys" /\
   kv_getWithMetadata (APP_JSON env) (derive_key (url_pathname request)) w
   = (Throw e, w')) \/
  (url_pathname request = "/list-keys" /\
   exists err,
     listAllKeys fuel (APP_JSON env) w = Some (Throw err, w') /\
     (errorMessage_of err = Throw e \/
      exists m, errorMessage_of err = Normal m /\ JSON_stringify m = Throw e)).
Proof.
  destruct (String.eqb_spec (url_pathname request) "/list-keys") as [Hp|Hp].
  - rewrite fetch_list_keys_route by (rewrite Hp; reflexivity).
    destruct (listAllKeys fuel (APP_JSON env) w) as [[[ks|err] w1]|].
    + split; [discriminate|].
      intros [[Hne _]|[_ [err [Hrun _]]]]; [contradiction | discriminate].
    + destruct (errorMessage_of err) as [m|e0] eqn:Hm.
      * rewrite stringify_fault_details.
        destruct (stringify_fault m) as [e1|] eqn:Hf.
        -- split.
           ++ intros H. injection H as -> ->. right. split; [exact Hp|].
              exists err. split; [reflexivity|]. right. exists m.
              split; [exact Hm|]. unfold JSON_stringify. now rewrite Hf.
           ++ intros [[Hne _]|[_ [err' [Hrun H]]]]; [contradiction|].
              injection Hrun as <- <-. rewrite Hm in H.
              destruct H as [H|[m' [Hm' H]]]; [discriminate|].
              injection Hm' as <-. unfold JSON_stringify in H.
              rewrite Hf in H. now injection H as ->.
        -- split; [discriminate|].
           intros [[Hne _]|[_ [err' [Hrun H]]]]; [contradiction|].
           injection Hrun as <- <-. rewrite Hm in H.
           destruct H as [H|[m' [Hm' H]]]; [discriminate|].
           injection Hm' as <-. unfold JSON_stringify in H.
           rewrite Hf in H. discriminate H.
      * split.
        -- intros H. injection H as -> ->. right. split; [exact Hp|].
           exists err. split; [reflexivity|]. now left.
        -- intros [[Hne _]|[_ [err' [Hrun H]]]]; [contradiction|].
           injection Hrun as <- <-. rewrite Hm in H.
           destruct H as [H|[m' [Hm' _]]]; [|discriminate].
           now injection H as ->.
    + split; [discriminate|].
      intros [[Hne _]|[_ [err [Hrun _]]]]; [contradiction | discriminate].
  - rewrite fetch_document_route by now apply String.eqb_neq.
    cbv zeta.
    destruct (kv_getWithMetadata (APP_JSON env)
                (derive_key (url_pathname request)) w) as [[object|e0] w0].
    + split.
      * destruct object as [o|]; [|discriminate].
        destruct (value o) as [s|]; [|discriminate].
        destruct (s =? EmptyString); [discriminate|].
        destruct (match option_map _ (header_If_None_Match request) with
                  | Some x => _ | None => false end); discriminate.
      * intros [[_ H]|[H _]]; [discriminate H | contradiction].
    + split.
      * intros H. injection H as -> ->. left. now split.
      * intros [[_ H]|[H _]]; [|contradiction].
        injection H as -> ->. reflexivity.
Qed.

(** X11. Every response of the handler has status 200, 304, 404 or 500.
    It has no body exactly when its status is 304, and it declares
    [Content-Type: application/json] exactly when it has a body.  The
    caching directive [Cache-Control: public, max-age=300] and the [ETag]
    come only with a document: never on [/list-keys], never with 404 or
    500. *)
Theorem fetch_response_shape fuel request env w r w' :
  fetch fuel request env w = Some (Normal r, w') ->
  (status r = 200 \/ status r = 304 \/ status r = 404 \/ status r = 500)%Z /\
  (body r = None <-> status r = 304%Z) /\
  (headers_get "Content-Type" (headers r)
   = if (status r =? 304)%Z then None else Some "application/json") /\
  (headers_get "Cache-Control" (headers r) <> None ->
   url_pathname request <> "/list-keys" /\ status r = 200%Z /\
   headers_get "Cache-Control" (headers r) = Some "public, max-age=300") /\
  (headers_get "ETag" (headers r) <> None ->
   url_pathname request <> "/list-keys" /\
   (status r = 200 \/ status r = 304)%Z).
Proof.
  intros H.
  destruct (String.eqb_spec (url_pathname request) "/list-keys") as [Hp|Hp].
  - rewrite fetch_list_keys_route in H by (rewrite Hp; reflexivity).
    destruct (listAllKeys fuel (APP_JSON env) w) as [[[ks|err] w1]|];
      [| |discriminate].
    + injection H as <- _; cbn;
        (repeat split; try discriminate; try congruence; auto).
    + destruct (errorMessage_of err) as [m|e']; [|discriminate].
      destruct (stringify_fault _); [discriminate|].
      injection H as <- _; cbn [status headers body headers_get stringify];
        cbn [String.eqb Ascii.eqb Bool.eqb Z.eqb Pos.eqb];
        (repeat split; try discriminate; try congruence; auto).
  - rewrite fetch_document_route in H by now apply String.eqb_neq.
    cbv zeta in H.
    destruct (kv_getWithMetadata (APP_JSON env)
                (derive_key (url_pathname request)) w) as [[object|e0] w0];
      [|discriminate].
    assert (H404 : forall key,
      let r0 := {| status := 404;
                   headers := [("Content-Type", "application/json")];
                   body := stringify
                             (JsObject [("error",
                                         JsString ("JSON not found for key: " ++ key))]) |} in
      (status r0 = 200 \/ status r0 = 304 \/ status r0 = 404 \/ status r0 = 500)%Z /\
      (body r0 = None <-> status r0 = 304%Z) /\
      (headers_get "Content-Type" (headers r0)
       = if (status r0 =? 304)%Z then None else Some "application/json") /\
      (headers_get "Cache-Control" (headers r0) <> None ->
       url_pathname request <> "/list-keys" /\ status r0 = 200%Z /\
       headers_get "Cache-Control" (headers r0) = Some "public, max-age=300") /\
      (headers_get "ETag" (headers r0) <> None ->
       url_pathname request <> "/list-keys" /\
       (status r0 = 200 \/ status r0 = 304)%Z)).
    { intros key. cbn.
      repeat split; try discriminate; try congruence; auto. }
    destruct object as [o|]; [|injection H as <- _; apply H404].
    destruct (value o) as [s|]; [|injection H as <- _; apply H404].
    destruct (s =? EmptyString); [injection H as <- _; apply H404|].
    destruct (match option_map _ (header_If_None_Match request) with
              | Some x => _ | None => false end);
      injection H as <- _; cbn;
      (repeat split; try discriminate; try congruence; auto).
Qed.

End OutcomeFacts.

Lemma fetch_response_shape_witness :
  (status (not_modified (quoted (sha1 "{}"))) = 200
   \/ status (not_modified (quoted (sha1 "{}"))) = 304
   \/ status (not_modified (quoted (sha1 "{}"))) = 404
   \/ status (not_modified (quoted (sha1 "{}"))) = 500)%Z /\
  (body (not_modified (quoted (sha1 "{}"))) = None
   <-> status (not_modified (quoted (sha1 "{}"))) = 304%Z).
Proof.
  destruct (fetch_response_shape 0
              {| url_pathname := "/a";
                 header_If_None_Match := Some (quoted (sha1 "{}")) |}
              {| APP_JSON := mem_store [("a.json", "{}")] |} tt
              (not_modified (quoted (sha1 "{}"))) tt)
    as [Hs [Hb _]].
  - reflexivity.
  - split; [exact Hs | exact Hb].
Defined.

(** ** The calls the worker makes on the store *)

Lemma listAllKeys_loop_tracing {World : Type} fuel :
  forall (kv : KVNamespace World) keys0 cursor0 (w : World) t0 out w',
  listAllKeys_loop fuel kv keys0 cursor0 w = Some (out, w') ->
  exists calls,
    listAllKeys_loop fuel (tracing kv) keys0 cursor0 (w, t0)
    = Some (out, (w', (t0 ++ calls)%list)) /\
    forallb is_list_1000 calls = true /\
    calls <> [].
Proof.
  induction fuel as [|fuel IH]; intros kv keys0 cursor0 w t0 out w' H;
    [discriminate|].
  rewrite listAllKeys_loop_unfold in H. rewrite listAllKeys_loop_unfold.
  cbn [tracing kv_list fst snd].
  destruct (kv_list kv {| opt_cursor := cursor0; opt_limit := 1000 |} w)
    as [[r|e] w1] eqn:Hcall; cbv beta iota.
  - destruct (cursor_truthy (cursor r)) eqn:Hc.
    + destruct (IH _ _ _ _
                  (t0 ++ [CallList {| opt_cursor := cursor0; opt_limit := 1000 |}])%list
                  _ _ H) as [calls [Hrun [Hall _]]].
      exists (CallList {| opt_cursor := cursor0; opt_limit := 1000 |} :: calls).
      split; [|split; [exact Hall | discriminate]].
      etransitivity; [exact Hrun|]. now rewrite <- app_assoc.
    + injection H as <- <-.
      exists [CallList {| opt_cursor := cursor0; opt_limit := 1000 |}].
      split; [reflexivity | split; [reflexivity | discriminate]].
  - injection H as <- <-.
    exists [CallList {| opt_cursor := cursor0; opt_limit := 1000 |}].
    split; [reflexivity | split; [reflexivity | discriminate]].
Qed.

(** X12. Whatever the worker answers, it answers the same when its store
    calls are traced, and the trace is this: on the document route one
    single call, the lookup of the derived key, and no listing; on the
    [/list-keys] route one or more listing calls, each asking for 1000
    keys, and no lookup. *)
Theorem fetch_store_calls {World : Type} fuel request (kv : KVNamespace World)
    (w : World) out w' :
  fetch fuel request {| APP_JSON := kv |} w = Some (out, w') ->
  exists trace,
    fetch fuel request {| APP_JSON := tracing kv |} (w, []) = Some (out, (w', trace)) /\
    (url_pathname request <> "/list-keys" ->
     trace = [CallGet (derive_key (url_pathname request))]) /\
    (url_pathname request = "/list-keys" ->
     trace <> [] /\ forallb is_list_1000 trace = true).
Proof.
  destruct (url_pathname request =? "/list-keys") eqn:Hp.
  - intros H. rewrite (fetch_list_keys_route _ _ _ _ Hp) in H.
    rewrite (fetch_list_keys_route _ _ _ _ Hp).
    cbn [APP_JSON] in *. unfold listAllKeys in *.
    destruct (listAllKeys_loop fuel kv [] None w) as [[c w1]|] eqn:Hrun;
      [|discriminate].
    destruct (listAllKeys_loop_tracing fuel kv [] None w [] c w1 Hrun)
      as [calls [Htr [Hall Hne]]].
    exists calls. cbn [app] in Htr. rewrite Htr.
    apply String.eqb_eq in Hp.
    split; [|split; [contradiction | now split]].
    destruct c as [ks|err]; [injection H as <- <-; reflexivity|].
    destruct (errorMessage_of err) as [m|e']; [|injection H as <- <-; reflexivity].
    destruct (stringify_fault _); injection H as <- <-; reflexivity.
  - intros H. rewrite (fetch_document_route _ _ _ _ Hp) in H.
    rewrite (fetch_document_route _ _ _ _ Hp).
    cbv zeta in *. cbn [APP_JSON tracing kv_getWithMetadata fst snd] in *.
    apply String.eqb_neq in Hp.
    exists [CallGet (derive_key (url_pathname request))].
    split; [|split; [reflexivity | contradiction]].
    destruct (kv_getWithMetadata kv (derive_key (url_pathname request)) w)
      as [[object|e0] w0]; cbv beta iota.
    + destruct object as [o|]; [|injection H as <- <-; reflexivity].
      destruct (value o) as [s|]; [|injection H as <- <-; reflexivity].
      destruct (s =? EmptyString); [injection H as <- <-; reflexivity|].
      destruct (match option_map _ (header_If_None_Match request) with
                | Some x => _ | None => false end);
        injection H as <- <-; reflexivity.
    + injection H as <- <-; reflexivity.
Qed.

Lemma fetch_store_calls_witness :
  exists trace,
    fetch 2 {| url_pathname := "/list-keys"; header_If_None_Match := None |}
          {| APP_JSON := tracing countdown_store |} (1, [])
    = Some (Normal {| status := 200;
                      headers := [("Content-Type", "application/json");
                                  ("Access-Control-Allow-Origin", "*")];
                      body := stringify (JsArray [JsString "k"; JsString "k"]) |},
            (0, trace)) /\
    trace <> [] /\ forallb is_list_1000 trace = true.
Proof.
  destruct (fetch_store_calls 2
              {| url_pathname := "/list-keys"; header_If_None_Match := None |}
              countdown_store 1
              (Normal {| status := 200;
                         headers := [("Content-Type", "application/json");
                                     ("Access-Control-Allow-Origin", "*")];
                         body := stringify (JsArray [JsString "k"; JsString "k"]) |})
              0 eq_refl)
    as [trace [Hrun [_ Hlist]]].
  exists trace. split; [exact Hrun | exact (Hlist eq_refl)].
Defined.

(** ** A failed enumeration *)

Lemma listAllKeys_loop_fault_log {World : Type} fuel :
  forall (kv : KVNamespace World) keys0 cursor0 (w : World) log0 e w',
  listAllKeys_loop fuel kv keys0 cursor0 w = Some (Throw e, w') ->
  exists calls,
    listAllKeys_loop fuel (logging kv) keys0 cursor0 (w, log0)
    = Some (Throw e, (w', (log0 ++ calls)%list)) /\
    chained_to_fault cursor_truthy e cursor0 calls.
Proof.
  induction fuel as [|fuel IH]; intros kv keys0 cursor0 w log0 e w' H;
    [discriminate|].
  rewrite listAllKeys_loop_unfold in H. rewrite listAllKeys_loop_unfold.
  cbn [logging kv_list fst snd].
  destruct (kv_list kv {| opt_cursor := cursor0; opt_limit := 1000 |} w)
    as [[r|e0] w1] eqn:Hcall; cbv beta iota.
  - destruct (cursor_truthy (cursor r)) eqn:Hc; [|discriminate].
    destruct (IH _ _ _ _
                (log0 ++ [({| opt_cursor := cursor0; opt_limit := 1000 |},
                           Normal r)])%list _ _ H) as [calls [Hrun Hch]].
    exists (({| opt_cursor := cursor0; opt_limit := 1000 |}, Normal r) :: calls).
    split.
    + etransitivity; [exact Hrun|]. now rewrite <- app_assoc.
    + cbn [chained_to_fault]. now repeat split.
  - injection H as <- <-.
    exists [({| opt_cursor := cursor0; opt_limit := 1000 |}, Throw e0)].
    split; [reflexivity|]. cbn [chained_to_fault]. now repeat split.
Qed.

Lemma chained_to_fault_split continues e : forall log cursor0,
  chained_to_fault continues e cursor0 log ->
  exists calls o,
    log = (calls ++ [(o, Throw e)])%list /\
    Forall (fun c => exists r, snd c = Normal r /\ continues (cursor r) = true)
           calls.
Proof.
  induction log as [|[o [r|e0]] rest IH]; intros cursor0 H; [destruct H| |].
  - cbn [chained_to_fault] in H. destruct H as [_ [Hc Hrest]].
    destruct (IH _ Hrest) as [calls [o' [-> Hall]]].
    exists ((o, Normal r) :: calls), o'. split; [reflexivity|].
    constructor; [now exists r | exact Hall].
  - cbn [chained_to_fault] in H. destruct H as [_ [-> ->]].
    exists [], o. split; [reflexivity | constructor].
Qed.

(** X13. When the enumeration fails with a fault, the calls the store has
    served are these: every call but the last resolved with a non-empty
    cursor and was followed by a call carrying that cursor with a limit of
    1000, the last call is the one that rejected, with that very fault,
    and no call follows it: a failed call is not tried again, and nothing
    is listed after it. *)
Theorem listAllKeys_fault_log {World : Type} fuel (kv : KVNamespace World)
    (w : World) e w' :
  listAllKeys fuel kv w = Some (Throw e, w') ->
  exists log,
    listAllKeys fuel (logging kv) (w, []) = Some (Throw e, (w', log)) /\
    chained_to_fault cursor_truthy e None log /\
    exists calls o,
      log = (calls ++ [(o, Throw e)])%list /\
      Forall (fun c => exists r, snd c = Normal r /\
                                 cursor_truthy (cursor r) = true) calls.
Proof.
  intros H. unfold listAllKeys in *.
  destruct (listAllKeys_loop_fault_log fuel kv [] None w [] e w' H)
    as [log [Hrun Hch]].
  exists log. split; [exact Hrun|split; [exact Hch|]].
  exact (chained_to_fault_split _ _ _ _ Hch).
Qed.

Lemma listAllKeys_fault_log_witness :
  exists log,
    listAllKeys 5 (logging (flaky_store (JsString "boom"))) (tt, [])
    = Some (Throw (JsString "boom"), (tt, log)) /\
    chained_to_fault cursor_truthy (JsString "boom") None log.
Proof.
  destruct (listAllKeys_fault_log 5 (flaky_store (JsString "boom")) tt
              (JsString "boom") tt eq_refl) as [log [Hrun [Hch _]]].
  exists log. split; [exact Hrun | exact Hch].
Defined.

(** ** The answer of [/list-keys] *)

Lemma stringify_string_array (ks : list string) :
  stringify (JsArray (map JsString ks))
  = Some ("[" ++ String.concat "," (map quote ks) ++ "]").
Proof.
  cbn [stringify]. rewrite map_map. reflexivity.
Qed.

Lemma map_quote_plain (ks : list string) :
  Forall (fun k => plain k = true) ks -> map quote ks = map quoted ks.
Proof.
  induction 1 as [|k ks Hk _ IH]; [reflexivity|].
  cbn [map]. now rewrite IH, (quote_plain k Hk).
Qed.

(** X14. When the enumeration returns, [/list-keys] answers with status
    200, the two headers [Content-Type: application/json] and
    [Access-Control-Allow-Origin: *], and as body the JSON array of the
    key names in enumeration order: each name quoted and escaped, a comma
    between two names, [[]] for no key.  The answer has no [ETag] and does
    not depend on [If-None-Match]. *)
Theorem fetch_list_keys_success {World : Type} fuel request (env : Env World)
    (w : World) ks w' :
  url_pathname request = "/list-keys" ->
  listAllKeys fuel (APP_JSON env) w = Some (Normal ks, w') ->
  fetch fuel request env w
  = Some (Normal {| status := 200;
                    headers := [("Content-Type", "application/json");
                                ("Access-Control-Allow-Origin", "*")];
                    body := Some ("[" ++ String.concat "," (map quote ks) ++ "]") |},
          w') /\
  (Forall (fun k => plain k = true) ks ->
   fetch fuel request env w
   = Some (Normal {| status := 200;
                     headers := [("Content-Type", "application/json");
                                 ("Access-Control-Allow-Origin", "*")];
                     body := Some ("[" ++ String.concat "," (map quoted ks) ++ "]") |},
           w')).
Proof.
  intros Hp Hrun.
  assert (H : fetch fuel request env w
              = Some (Normal {| status := 200;
                                headers := [("Content-Type", "application/json");
                                            ("Access-Control-Allow-Origin", "*")];
                                body := Some ("[" ++ String.concat "," (map quote ks)
                                                  ++ "]") |}, w')).
  { rewrite fetch_list_keys_route by (rewrite Hp; reflexivity).
    now rewrite Hrun, stringify_string_array. }
  split; [exact H|]. intros Hplain. now rewrite H, (map_quote_plain ks Hplain).
Qed.

Lemma fetch_list_keys_success_witness :
  fetch 1 {| url_pathname := "/list-keys"; header_If_None_Match := Some "*" |}
        {| APP_JSON := mem_store [("a.json", "{}"); ("b.json", "[]")] |} tt
  = Some (Normal {| status := 200;
                    headers := [("Content-Type", "application/json");
                                ("Access-Control-Allow-Origin", "*")];
                    body := Some ("[" ++ String.concat ","
                                           (map quoted ["a.json"; "b.json"]) ++ "]") |},
          tt).
Proof.
  apply (proj2 (fetch_list_keys_success 1
                  {| url_pathname := "/list-keys"; header_If_None_Match := Some "*" |}
                  {| APP_JSON := mem_store [("a.json", "{}"); ("b.json", "[]")] |}
                  tt ["a.json"; "b.json"] tt eq_refl eq_refl)).
  repeat constructor.
Defined.

(** ** The quote stripping of line 52 *)

Lemma quotes_to_end_ends (s : string) :
  JsString.quotes_to_end s = true ->
  exists pre, s = pre ++ String JsString.dquote EmptyString.
Proof.
  induction s as [|a s IH]; [discriminate|].
  destruct s as [|b s].
  - cbn. intros H. apply Ascii.eqb_eq in H as ->. now exists EmptyString.
  - change (JsString.quotes_to_end (String a (String b s)))
      with (Ascii.eqb a JsString.dquote && JsString.quotes_to_end (String b s)).
    intros H. apply andb_true_iff in H as [_ H].
    destruct (IH H) as [pre ->]. now exists (String a pre).
Qed.

Lemma quotes_to_end_cons (a : ascii) (s : string) :
  Ascii.eqb a JsString.dquote = true ->
  s = EmptyString \/ JsString.quotes_to_end s = true ->
  JsString.quotes_to_end (String a s) = true.
Proof.
  intros Ha [->|Hs]; [exact Ha|].
  destruct s as [|b s]; [discriminate Hs|].
  change (JsString.quotes_to_end (String a (String b s)))
    with (Ascii.eqb a JsString.dquote && JsString.quotes_to_end (String b s)).
  now rewrite Ha, Hs.
Qed.

Lemma replace_trailing_quotes_empty (t : string) :
  JsString.replace_trailing_quotes t = EmptyString ->
  t = EmptyString \/ JsString.quotes_to_end t = true.
Proof.
  destruct t as [|a t]; [now left|].
  cbn [JsString.replace_trailing_quotes].
  destruct (JsString.quotes_to_end (String a t)); [now right | discriminate].
Qed.

(** What the scan leaves does not end with a quote. *)
Lemma replace_trailing_quotes_no_quote (t : string) : forall pre,
  JsString.replace_trailing_quotes t <> pre ++ String JsString.dquote EmptyString.
Proof.
  induction t as [|a t IH]; intros pre.
  - destruct pre; discriminate.
  - cbn [JsString.replace_trailing_quotes].
    destruct (JsString.quotes_to_end (String a t)) eqn:Hq;
      [destruct pre; discriminate|].
    destruct pre as [|b pre]; cbn [append]; intros E.
    + injection E as -> Ht.
      apply replace_trailing_quotes_empty in Ht.
      rewrite quotes_to_end_cons in Hq;
        [discriminate | apply Ascii.eqb_refl | exact Ht].
    + injection E as _ Ht. exact (IH _ Ht).
Qed.

(** The scan leaves a string that does not end with a quote as it is. *)
Lemma replace_trailing_quotes_fixed (r : string) :
  (forall pre, r <> pre ++ String JsString.dquote EmptyString) ->
  JsString.replace_trailing_quotes r = r.
Proof.
  induction r as [|a r IH]; intros H; [reflexivity|].
  cbn [JsString.replace_trailing_quotes].
  destruct (JsString.quotes_to_end (String a r)) eqn:Hq.
  - destruct (quotes_to_end_ends _ Hq) as [pre E]. now apply H in E.
  - rewrite IH; [reflexivity|].
    intros pre E. apply (H (String a pre)). cbn [append]. now rewrite E.
Qed.

Lemma run_length_slice_run (c : ascii) (s : string) :
  JsString.run_length c (JsString.slice (JsString.run_length c s) s) = 0.
Proof.
  induction s as [|a s IH]; [reflexivity|].
  cbn [JsString.run_length].
  destruct (Ascii.eqb a c) eqn:E; cbn [JsString.slice JsString.run_length].
  - exact IH.
  - now rewrite E.
Qed.

Lemma run_length_replace_trailing_quotes (t : string) :
  JsString.run_length JsString.dquote t = 0 ->
  JsString.run_length JsString.dquote (JsString.replace_trailing_quotes t) = 0.
Proof.
  destruct t as [|a t]; [reflexivity|].
  cbn [JsString.run_length JsString.replace_trailing_quotes].
  destruct (Ascii.eqb a JsString.dquote) eqn:E; [discriminate|]. intros _.
  rewrite (quotes_to_end_other _ _ E). cbn [JsString.run_length]. now rewrite E.
Qed.

(** X15. Stripping the surrounding quotes leaves a string that neither
    starts nor ends with a double quote, quotes inside it are kept, and
    stripping again changes nothing. *)
Theorem replace_surrounding_quotes_normal (s : string) :
  JsString.run_length JsString.dquote (JsString.replace_surrounding_quotes s) = 0 /\
  ~ has_suffix (JsString.replace_surrounding_quotes s)
               (String JsString.dquote EmptyString) /\
  JsString.replace_surrounding_quotes (JsString.replace_surrounding_quotes s)
  = JsString.replace_surrounding_quotes s.
Proof.
  assert (H1 : JsString.run_length JsString.dquote
                 (JsString.replace_surrounding_quotes s) = 0).
  { apply run_length_replace_trailing_quotes, run_length_slice_run. }
  assert (H2 : forall pre, JsString.replace_surrounding_quotes s
                           <> pre ++ String JsString.dquote EmptyString).
  { apply replace_trailing_quotes_no_quote. }
  split; [exact H1|split].
  - intros [pre E]. exact (H2 pre E).
  - unfold JsString.replace_surrounding_quotes at 1. rewrite H1.
    cbn [JsString.slice].
    replace (JsString.slice 0 (JsString.replace_surrounding_quotes s))
      with (JsString.replace_surrounding_quotes s)
      by now destruct (JsString.replace_surrounding_quotes s).
    now apply replace_trailing_quotes_fixed.
Qed.

Example replace_surrounding_quotes_keeps_inner :
  JsString.replace_surrounding_quotes
    (quotes 2 ++ "a" ++ quotes 1 ++ "b" ++ quotes 3)
  = "a" ++ quotes 1 ++ "b".
Proof. reflexivity. Qed.

(** ** Quotes and the weak prefix never matter *)

Lemma quotes_to_end_all_quotes (s : string) : forall a,
  JsString.quotes_to_end (String a s)
  = Ascii.eqb a JsString.dquote && all_quotes s.
Proof.
  induction s as [|b s IH]; intros a.
  - cbn. now rewrite andb_true_r.
  - change (JsString.quotes_to_end (String a (String b s)))
      with (Ascii.eqb a JsString.dquote && JsString.quotes_to_end (String b s)).
    now rewrite IH.
Qed.

Lemma all_quotes_quotes (m : nat) : all_quotes (quotes m) = true.
Proof. induction m as [|m IH]; [reflexivity | exact IH]. Qed.

Lemma all_quotes_append_quotes (u : string) (m : nat) :
  all_quotes (u ++ quotes m) = all_quotes u.
Proof.
  induction u as [|a u IH]; cbn [append all_quotes].
  - apply all_quotes_quotes.
  - now rewrite IH.
Qed.

(** Quotes at the end are deleted with the trailing run. *)
Lemma replace_trailing_quotes_append (u : string) (m : nat) :
  JsString.replace_trailing_quotes (u ++ quotes m)
  = JsString.replace_trailing_quotes u.
Proof.
  induction u as [|a u IH].
  - exact (replace_trailing_quotes_run EmptyString m eq_refl).
  - cbn [append JsString.replace_trailing_quotes].
    now rewrite !quotes_to_end_all_quotes, all_quotes_append_quotes, IH.
Qed.

Lemma slice_run_all_quotes (t : string) :
  all_quotes t = true ->
  JsString.slice (JsString.run_length JsString.dquote t) t = EmptyString.
Proof.
  induction t as [|a t IH]; [reflexivity|].
  cbn [all_quotes JsString.run_length]. intros H.
  apply andb_true_iff in H as [Ha Ht]. rewrite Ha. exact (IH Ht).
Qed.

Lemma slice_run_append (t v : string) :
  JsString.slice (JsString.run_length JsString.dquote (t ++ v)) (t ++ v)
  = if all_quotes t
    then JsString.slice (JsString.run_length JsString.dquote v) v
    else JsString.slice (JsString.run_length JsString.dquote t) t ++ v.
Proof.
  induction t as [|a t IH]; [reflexivity|].
  cbn [append all_quotes JsString.run_length].
  destruct (Ascii.eqb a JsString.dquote); [exact IH | reflexivity].
Qed.

(** Quotes around a header leave its stripped form unchanged. *)
Lemma replace_surrounding_quotes_around (n m : nat) (t : string) :
  JsString.replace_surrounding_quotes (quotes n ++ t ++ quotes m)
  = JsString.replace_surrounding_quotes t.
Proof.
  unfold JsString.replace_surrounding_quotes.
  rewrite run_length_quotes, slice_quotes, slice_run_append.
  destruct (all_quotes t) eqn:E.
  - rewrite (slice_run_all_quotes t E).
    now rewrite (slice_run_all_quotes _ (all_quotes_quotes m)).
  - apply replace_trailing_quotes_append.
Qed.

Lemma prefix_weak_append_quotes (t : string) (m : nat) :
  prefix "W/" t = false -> prefix "W/" (t ++ quotes m) = false.
Proof.
  destruct t as [|a t]; [intros _; now destruct m|].
  cbn [append prefix]. destruct (ascii_dec "W" a) as [_|_]; [|reflexivity].
  destruct t as [|b t]; [intros _; now destruct m|].
  cbn [append prefix]. destruct (ascii_dec "/" b) as [_|_]; [|reflexivity].
  now destruct t.
Qed.

Lemma normalize_validator_forms (weak : bool) (n m : nat) (t : string) :
  (weak = false -> n = 0 -> prefix "W/" t = false) ->
  normalize_validator ((if weak then "W/" else EmptyString)
                       ++ quotes n ++ t ++ quotes m)
  = JsString.replace_surrounding_quotes t.
Proof.
  intros H. unfold normalize_validator.
  assert (Hw : JsString.replace_weak_prefix
                 ((if weak then "W/" else EmptyString)
                  ++ quotes n ++ t ++ quotes m)
               = quotes n ++ t ++ quotes m).
  { destruct weak; [apply replace_weak_prefix_weak|].
    cbn [append]. destruct n as [|n]; [|reflexivity].
    cbn [quotes append]. unfold JsString.replace_weak_prefix.
    now rewrite (prefix_weak_append_quotes t m (H eq_refl eq_refl)). }
  rewrite Hw. apply replace_surrounding_quotes_around.
Qed.

Lemma normalize_validator_quoted (t : string) :
  normalize_validator (quoted t) = JsString.replace_surrounding_quotes t.
Proof.
  exact (normalize_validator_forms false 1 1 t
           (fun _ (H : 1 = 0) => False_ind _ (Nat.neq_succ_0 _ H))).
Qed.

(** The response depends on the header through its normal form only. *)
Lemma fetch_by_normal_form {World : Type} fuel p (env : Env World) w h1 h2 :
  normalize_validator h1 = normalize_validator h2 ->
  fetch fuel {| url_pathname := p; header_If_None_Match := Some h1 |} env w
  = fetch fuel {| url_pathname := p; header_If_None_Match := Some h2 |} env w.
Proof.
  unfold normalize_validator. intros H.
  unfold fetch. cbn [url_pathname header_If_None_Match option_map].
  now rewrite H.
Qed.

(** C5. For every stored document and every token [t], the request that
    sends the weak validator, [W/] followed by [t] between quotes, gets
    the very response of the same request sending [t] between quotes.
    The prefix and the quotes are stripped before the comparison and do
    not enter the decision: the token sent bare, or with any number of
    quotes before and after it, with or without [W/] in front, gets that
    same response; and on a stored document the response is the 304 one
    exactly when the token, stripped of its own surrounding quotes, is the
    bare digest of the document, and the full 200 one otherwise.  A token
    sent without [W/] and without a quote before it must not itself start
    with [W/], which the handler would strip. *)
Theorem fetch_weak_validator {World : Type} fuel p (env : Env World) w
    (t : string) :
  fetch fuel {| url_pathname := p;
                header_If_None_Match := Some ("W/" ++ quoted t) |} env w
  = fetch fuel {| url_pathname := p;
                  header_If_None_Match := Some (quoted t) |} env w /\
  (prefix "W/" t = false ->
   fetch fuel {| url_pathname := p; header_If_None_Match := Some t |} env w
   = fetch fuel {| url_pathname := p;
                   header_If_None_Match := Some (quoted t) |} env w) /\
  (forall (weak : bool) (n m : nat),
      (weak = false -> n = 0 -> prefix "W/" t = false) ->
      fetch fuel {| url_pathname := p;
                    header_If_None_Match :=
                      Some ((if weak then "W/" else EmptyString)
                            ++ quotes n ++ t ++ quotes m) |} env w
      = fetch fuel {| url_pathname := p;
                      header_If_None_Match := Some (quoted t) |} env w) /\
  (forall o jsonString w',
      p <> "/list-keys" ->
      kv_getWithMetadata (APP_JSON env) (derive_key p) w = (Normal (Some o), w') ->
      value o = Some jsonString ->
      jsonString <> EmptyString ->
      fetch fuel {| url_pathname := p;
                    header_If_None_Match := Some ("W/" ++ quoted t) |} env w
      = Some (Normal (if JsString.replace_surrounding_quotes t =? sha1 jsonString
                      then not_modified (quoted (sha1 jsonString))
                      else full_document (quoted (sha1 jsonString)) jsonString),
              w')).
Proof.
  assert (Hforms : forall (weak : bool) (n m : nat),
             (weak = false -> n = 0 -> prefix "W/" t = false) ->
             fetch fuel {| url_pathname := p;
                           header_If_None_Match :=
                             Some ((if weak then "W/" else EmptyString)
                                   ++ quotes n ++ t ++ quotes m) |} env w
             = fetch fuel {| url_pathname := p;
                             header_If_None_Match := Some (quoted t) |} env w).
  { intros weak n m H. apply fetch_by_normal_form.
    now rewrite normalize_validator_forms, normalize_validator_quoted. }
  split; [|split; [|split; [exact Hforms|]]].
  - exact (Hforms true 1 1 (fun H => False_ind _ (Bool.diff_true_false H))).
  - intros H. rewrite <- (Hforms false 0 0 (fun _ _ => H)).
    cbn [quotes append]. now rewrite append_nil_r.
  - intros o jsonString w' Hp Hget Hv Hne.
    rewrite (fetch_stored fuel
               {| url_pathname := p;
                  header_If_None_Match := Some ("W/" ++ quoted t) |}
               env w o jsonString w' Hp Hget Hv Hne).
    cbn [header_If_None_Match].
    change ("W/" ++ quoted t)
      with ((if true then "W/" else EmptyString) ++ quotes 1 ++ t ++ quotes 1).
    rewrite normalize_validator_forms; [reflexivity|]. discriminate.
Qed.

(** The bare digest, the quoted digest and the weak quoted digest of a
    stored document get one response. *)
Lemma fetch_weak_validator_witness :
  fetch 0 {| url_pathname := "/a";
             header_If_None_Match := Some ("W/" ++ quoted (sha1 "{}")) |}
        {| APP_JSON := mem_store [("a.json", "{}")] |} tt
  = fetch 0 {| url_pathname := "/a";
               header_If_None_Match := Some (quoted (sha1 "{}")) |}
          {| APP_JSON := mem_store [("a.json", "{}")] |} tt /\
  fetch 0 {| url_pathname := "/a"; header_If_None_Match := Some (sha1 "{}") |}
        {| APP_JSON := mem_store [("a.json", "{}")] |} tt
  = fetch 0 {| url_pathname := "/a";
               header_If_None_Match := Some (quoted (sha1 "{}")) |}
          {| APP_JSON := mem_store [("a.json", "{}")] |} tt.
Proof.
  destruct (fetch_weak_validator 0 "/a"
              {| APP_JSON := mem_store [("a.json", "{}")] |} tt (sha1 "{}"))
    as [Hweak [Hbare _]].
  split; [exact Hweak|]. apply Hbare.
  destruct (sha1_shape "{}") as [Hl Hx].
  destruct (sha1 "{}") as [|a s]; [reflexivity|].
  cbn [all_lower_hex] in Hx. apply andb_true_iff in Hx as [Ha _].
  cbn [prefix]. destruct (ascii_dec "W" a) as [<-|_]; [discriminate Ha|reflexivity].
Defined.

(** ** A failed enumeration on [/list-keys] *)



